(** * atsp-approximation: the command-line driver [src/main.py]

    A shallow embedding of the driver of the ATSP approximation tool and the
    properties of it that the specification states: the result formatter, the
    single run, the multi-beta sweep, the benchmark helper [random_tour] and
    the entry point [main].

    Conventions of the embedding.
    - Python [int] is [Z]; Python [float] is idealised as an exact rational
      [Q].  The only float arithmetic of the driver is the repeated halving
      of [asym_ratio] and its product with a list length; both are exact in
      binary floating point, so nothing is lost there.
    - [print] appends an event to an output trace; an exception ends the
      computation and keeps the trace printed so far.
    - [while True] is a fuelled recursion: running out of fuel is a third
      outcome, and termination theorems show it does not happen.
    - Modules imported by [main.py] whose code is not part of the driver
      ([treedoubling], [christofides], [concorde_wrapper], [parser], ...)
      are fields of the interface [Externals]. *)

From Stdlib Require Import ZArith QArith Qround List String Ascii Bool Lia.
From Stdlib Require Import DecimalString Permutation Sorted PeanoNat.
Import ListNotations.

Local Open Scope Z_scope.

(** ** Python values *)

(** A number as the driver handles it: [beta] is the integer literal [0] or
    [1], or a float taken from the factor list; a cost is [0] or a float. *)
Inductive num : Type :=
| Int (z : Z)
| Float (q : Q).

Definition num_to_Q (x : num) : Q :=
  match x with
  | Int z => inject_Z z
  | Float q => q
  end.

(** [a <= b] on numbers, as Python compares an int with a float. *)
Definition num_le (a b : num) : Prop := (num_to_Q a <= num_to_Q b)%Q.

(** [len(l)] *)
Definition len {A : Type} (l : list A) : Z := Z.of_nat (List.length l).

(** [str(n)] for an int. *)
Definition str_int (z : Z) : string := NilZero.string_of_int (Z.to_int z).

(** [round(x)] with one argument: the nearest integer, a tie going to the
    even neighbour. *)
Definition py_round (x : Q) : Z :=
  let p := Qnum x in
  let q := Z.pos (Qden x) in
  let f := p / q in
  let r := p mod q in
  match 2 * r ?= q with
  | Lt => f
  | Gt => f + 1
  | Eq => if Z.even f then f else f + 1
  end.

(** ** Exceptions, outcomes and the output trace *)

Inductive exn : Type :=
| ValueError (msg : string)
| IndexError
| SystemExit
| ExternalError (origin : string).

Inductive outcome (A : Type) : Type :=
| Done (a : A)
| Raised (e : exn)
| OutOfFuel.
Arguments Done {A} a.
Arguments Raised {A} e.
Arguments OutOfFuel {A}.

(** What the process does to the outside world.  [ArgparseMessage] is what
    [argparse] itself prints when [parse_args] gives up: the help on the
    standard output for [-h], the usage and the error on the standard error
    for a command line it rejects. *)
Inductive event : Type :=
| Stdout (line : string)
| HelpPrinted
| ArgparseMessage
| GraphFileRead (path : string).

(** A computation: the events it produced, in order, and how it ended.  The
    event type is a parameter so that a caller can be observed through the
    callee it is given. *)
Definition M (E A : Type) : Type := (list E * outcome A)%type.

Definition ret {E A : Type} (a : A) : M E A := ([], Done a).

Definition bind {E A B : Type} (m : M E A) (k : A -> M E B) : M E B :=
  match m with
  | (out, Done a) => let (out', r) := k a in (out ++ out', r)
  | (out, Raised e) => (out, Raised e)
  | (out, OutOfFuel) => (out, OutOfFuel)
  end.

Definition emit {E : Type} (e : E) : M E unit := ([e], Done tt).
Definition raise {E A : Type} (e : exn) : M E A := ([], Raised e).
Definition print (line : string) : M event unit := emit (Stdout line).

(** The result of a call into another module: a value or an exception. *)
Definition lift {E A : Type} (r : exn + A) : M E A :=
  match r with
  | inl e => raise e
  | inr a => ret a
  end.

Declare Scope py_scope.
Delimit Scope py_scope with py.
Notation "x <- m ;; k" := (bind m (fun x => k))
  (at level 61, m at next level, right associativity) : py_scope.
Notation "m ;; k" := (bind m (fun _ => k))
  (at level 61, right associativity) : py_scope.
Local Open Scope py_scope.

(** [l[i]] for a list, with Python's negative indices and [IndexError]. *)
Definition getitem {A : Type} (l : list A) (i : Z) : exn + A :=
  let j := if i <? 0 then i + len l else i in
  if (0 <=? j) && (j <? len l) then
    match nth_error l (Z.to_nat j) with
    | Some a => inr a
    | None => inl IndexError
    end
  else inl IndexError.

(** ** Data model *)

(** A graph as the driver uses it: iterating it yields its nodes, each once
    ([list(g)], [len(g)]), and it carries the directed costs. *)
Record Graph : Type := {
  nodes : list Z;
  cost_of : Z -> Z -> Q;
  nodes_nodup : NoDup nodes
}.

(** The dict an exact oracle returns. *)
Record OracleResult : Type := {
  o_cost : num;
  o_tour : list Z
}.

(** The dict an extender returns. *)
Record Solution : Type := {
  cost : num;
  tour : list Z;
  kernel_size : Z
}.

(** [{**r, 'kernel_size': k}] *)
Definition with_kernel_size (r : OracleResult) (k : Z) : Solution :=
  {| cost := o_cost r; tour := o_tour r; kernel_size := k |}.

Definition ExactAlgo : Type := Graph -> exn + OracleResult.

(** The namespace [argparse] returns. *)
Record Args : Type := {
  a_graph : string;
  a_algo : string;
  a_compute_tour : bool;
  a_output_tour : bool;
  a_beta_list : list num;
  a_multibeta : bool
}.

(** ** The modules the driver imports *)

Class Externals : Type := {
  Matrix : Type;
  (** [str] of a float *)
  str_float : Q -> string;
  (** [argparse.ArgumentParser.parse_args] on [sys.argv]: the namespace, or
      the exception it ends with ([SystemExit] after its own message) *)
  parse_args : list string -> exn + Args;
  (** [parser.parse], which reads the file *)
  parse : string -> exn + Matrix;
  remove_dead_nodes : Matrix -> Matrix;
  metricize_cost_matrix : Matrix -> Matrix;
  to_graph : Matrix -> Graph;
  asymmetry_factors : Matrix -> list Q;
  concorde_asym : ExactAlgo;
  VcAlgo : Type;
  vertex_cover : VcAlgo;
  (** [g_treedoubling(g, exact_algo=, beta=)] *)
  g_treedoubling : Graph -> ExactAlgo -> num -> exn + Solution;
  (** [g_christofides(g, exact_algo=, vc_algo=, beta=)] *)
  g_christofides : Graph -> ExactAlgo -> VcAlgo -> num -> exn + Solution
}.

(** ** The driver *)

(** [for x in l: body(x)] *)
Fixpoint for_each {E A : Type} (body : A -> M E unit) (l : list A)
    : M E unit :=
  match l with
  | [] => ret tt
  | x :: l' => body x ;; for_each body l'
  end.

(** [sorted(l, reverse=True)] on floats: a stable descending sort. *)
Fixpoint insert_desc (x : Q) (l : list Q) : list Q :=
  match l with
  | [] => [x]
  | y :: l' => if Qle_bool y x then x :: y :: l' else y :: insert_desc x l'
  end.

Definition sorted_reverse (l : list Q) : list Q :=
  fold_right insert_desc [] l.

(** The double-quote character, and the line [multibeta] prints before its
    reference solution. *)
Definition dquote : string := String (ascii_of_nat 34) EmptyString.
Definition about_to_print_line : string :=
  String.append "About to print "
    (String.append dquote
       (String.append "format_output" (String.append dquote " line?"))).

(** The [while True] loop of [multibeta].  [call_run beta] stands for the
    call [run(g, algo, beta, compute_tour, output_tour)] of line 48. *)
Fixpoint multibeta_loop {E : Type} (call_run : num -> M E unit)
    (facs : list Q) (fuel : nat) (asym_ratio : Q) : M E unit :=
  match fuel with
  | O => ([], OutOfFuel)
  | S fuel' =>
      let beta_index := py_round (asym_ratio * inject_Z (len facs)) in
      beta <- (if beta_index >=? len facs then ret (Int 1)
               else f <- lift (getitem facs beta_index) ;; ret (Float f)) ;;
      call_run beta ;;
      if py_round (asym_ratio * inject_Z (len facs)) >? 0
      then multibeta_loop call_run facs fuel' (asym_ratio / 2)
      else ret tt
  end.

Section Driver.
Context {X : Externals}.

(** [str(n)] for a number. *)
Definition str_num (n : num) : string :=
  match n with
  | Int z => str_int z
  | Float q => str_float q
  end.

(** the lambda [lambda graph: {'cost': 0, 'tour': list(graph)}] *)
Definition dummy_tour : ExactAlgo :=
  fun graph => inr {| o_cost := Int 0; o_tour := nodes graph |}.

(** The list [output] that [format_output] joins. *)
Definition output_fields (solution : Solution) (graph_size : Z) (beta : num)
    (compute_tour output_tour : bool) : list string :=
  let output := [str_num beta; str_int graph_size;
                 str_int (kernel_size solution)] in
  let output :=
    if compute_tour then output ++ [str_num (cost solution)] else output in
  let output :=
    if output_tour
    then output ++ [String.concat " " (map str_int (tour solution))]
    else output in
  output.

Definition format_output (solution : Solution) (graph_size : Z) (beta : num)
    (compute_tour output_tour : bool) : string :=
  String.concat ", "
    (output_fields solution graph_size beta compute_tour output_tour).

Definition run (g : Graph) (algo : string) (beta : num)
    (compute_tour output_tour : bool) : M event unit :=
  exact_algo <-
    (if compute_tour
     then print "Using exact computation" ;; ret concorde_asym
     else print "Using dummy tour" ;; ret dummy_tour) ;;
  solution <-
    (if String.eqb algo "treedoubling" then
       print "About to run treedoubling" ;;
       lift (g_treedoubling g exact_algo beta)
     else if String.eqb algo "christofides" then
       print "About to run christofides" ;;
       lift (g_christofides g exact_algo vertex_cover beta)
     else
       raise (ValueError (String.append "invalid algo: " algo))) ;;
  print (format_output solution (len (nodes g)) beta compute_tour output_tour).

Definition multibeta (fuel : nat) (matrix : Matrix) (algo : string)
    (compute_tour output_tour : bool) : M event unit :=
  let g := to_graph matrix in
  exact_algo <-
    (if compute_tour
     then print "Using exact computation" ;; ret concorde_asym
     else print "Using dummy tour" ;; ret dummy_tour) ;;
  print about_to_print_line ;;
  exact <- lift (exact_algo g) ;;
  print (format_output (with_kernel_size exact (len (nodes g)))
           (len (nodes g)) (Int 0) compute_tour output_tour) ;;
  let facs := sorted_reverse (asymmetry_factors matrix) in
  multibeta_loop (fun beta => run g algo beta compute_tour output_tour)
    facs fuel 1.

(** The list [fields] that [main] joins into the header line. *)
Definition header_fields (compute_tour output_tour : bool) : list string :=
  let fields := ["beta"; "graph_size"; "kernel_size"]%string in
  let fields :=
    if compute_tour then fields ++ ["tour_cost"%string] else fields in
  let fields :=
    if output_tour then fields ++ ["tour"%string] else fields in
  fields.

(** [main], on [sys.argv]. *)
Definition main (fuel : nat) (argv : list string) : M event unit :=
  if len argv =? 1 then
    emit HelpPrinted ;; raise SystemExit
  else
    args <- (match parse_args argv with
             | inr args => ret args
             | inl SystemExit => emit ArgparseMessage ;; raise SystemExit
             | inl e => raise e
             end) ;;
    print "Parsed args, about to parse matrix" ;;
    emit (GraphFileRead (a_graph args)) ;;
    matrix <- lift (parse (a_graph args)) ;;
    print "Parsed matrix, about to process matrix" ;;
    let matrix := remove_dead_nodes matrix in
    let matrix := metricize_cost_matrix matrix in
    let g := to_graph matrix in
    print (String.concat ", "
             (header_fields (a_compute_tour args) (a_output_tour args))) ;;
    print "About to run" ;;
    if a_multibeta args then
      multibeta fuel matrix (a_algo args)
        (a_compute_tour args) (a_output_tour args)
    else
      let g := to_graph matrix in
      for_each
        (fun beta =>
           run g (a_algo args) beta (a_compute_tour args) (a_output_tour args))
        (a_beta_list args).

End Driver.

(** ** [random_tour] *)

(** [x[i] = v] on a list, nothing changing out of range. *)
Fixpoint set_item (l : list Z) (i : nat) (v : Z) : list Z :=
  match l, i with
  | [], _ => []
  | _ :: l', O => v :: l'
  | a :: l', S i' => a :: set_item l' i' v
  end.

(** [x[i], x[j] = x[j], x[i]] *)
Definition swap_items (x : list Z) (i j : nat) : list Z :=
  let xi := nth i x 0 in
  let xj := nth j x 0 in
  set_item (set_item x i xj) j xi.

(** [random.shuffle(x)], the library's loop
    [for i in reversed(range(1, len(x))): j = randbelow(i + 1); swap i, j],
    counting [i] down from the argument.  [randbelow n] is the draw the
    generator makes at bound [n]; the library keeps it below [n]. *)
Fixpoint shuffle_from (randbelow : nat -> nat) (i : nat) (x : list Z)
    : list Z :=
  match i with
  | O => x
  | S i' =>
      let j := (randbelow (S i) mod (S i))%nat in
      shuffle_from randbelow i' (swap_items x i j)
  end.

Definition shuffle (randbelow : nat -> nat) (x : list Z) : list Z :=
  shuffle_from randbelow (List.length x - 1) x.

(** Modelled from the spec: [util.tour_cost] is not part of the driver; the
    data model defines the cost of a tour as the sum of the directed edge
    costs along the closed sequence, the last node connecting back to the
    first. *)
Definition closed_edges (t : list Z) : list (Z * Z) :=
  combine t (tl t ++ firstn 1 t).

(** Modelled from the spec: [util.tour_cost], the sum of the directed edge
    costs over the edges of the closed sequence. *)
Definition tour_cost (t : list Z) (g : Graph) : Q :=
  fold_right (fun e acc => cost_of g (fst e) (snd e) + acc)%Q 0%Q
    (closed_edges t).

Definition random_tour (randbelow : nat -> nat) (g : Graph) : OracleResult :=
  let t := nodes g in
  let t := shuffle randbelow t in
  {| o_cost := Float (tour_cost t g); o_tour := t |}.

(** ** The extenders, from their contract *)

(** Modelled from the spec: [treedoubling.g_treedoubling] and
    [christofides.g_christofides] are not part of the driver.  Sections 4.5,
    4.6 and 9 describe their last stages: the spanning tree is traversed
    with every edge taken twice, the kernel tour is spliced in at the
    kernel-node visits, the closed walk is cut short to the first occurrence
    of every node with a visited set, and an extender that cannot place
    every original node fails. *)
#[warnings="-register-all"]
Inductive tree : Type :=
| Node (v : Z) (children : list tree).

(** Modelled from the spec: the closed walk of section 4.5 that takes every
    tree edge once in each direction. *)
Fixpoint euler_walk (t : tree) : list Z :=
  match t with
  | Node v children =>
      v :: flat_map (fun c => euler_walk c ++ [v]) children
  end.

Definition visited_mem (v : Z) (visited : list Z) : bool :=
  existsb (Z.eqb v) visited.

(** Modelled from the spec: the splice of section 4.5.  The kernel tour
    takes the place of the kernel-node visits: it is entered at the first of
    them and the later ones are dropped. *)
Fixpoint splice (kernel_tour walk : list Z) : list Z :=
  match walk with
  | [] => []
  | v :: walk' =>
      if visited_mem v kernel_tour
      then kernel_tour
             ++ filter (fun u => negb (visited_mem u kernel_tour)) walk'
      else v :: splice kernel_tour walk'
  end.

(** Modelled from the spec: the shortcut of sections 4.5 and 9, which
    visits each node only on its first occurrence in the walk. *)
Fixpoint shortcut (visited walk : list Z) : list Z :=
  match walk with
  | [] => []
  | v :: walk' =>
      if visited_mem v visited
      then shortcut visited walk'
      else v :: shortcut (v :: visited) walk'
  end.

(** Modelled from the spec: the check of section 8, set equality of the
    tour with the graph's node identifiers. *)
Definition places_every_node (g : Graph) (t : list Z) : bool :=
  forallb (fun v => visited_mem v t) (nodes g)
  && forallb (fun v => visited_mem v (nodes g)) t.

(** Modelled from the spec: the last stage both extenders share, which
    fails with a structural error instead of returning a partial tour
    (section 7). *)
Definition hamiltonian_of_walk (g : Graph) (walk : list Z) : exn + list Z :=
  let t := shortcut [] walk in
  if places_every_node g t then inr t
  else inl (ExternalError "structural error").

(** Modelled from the spec: tree doubling (section 4.5), the doubled
    spanning tree with the kernel tour spliced in, then shortcut. *)
Definition extend_treedoubling (g : Graph) (spanning : tree)
    (kernel_tour : list Z) : exn + list Z :=
  hamiltonian_of_walk g (splice kernel_tour (euler_walk spanning)).

(** Modelled from the spec: the Christofides-style extender (section 4.6),
    the Eulerian circuit of the multigraph of tree edges, cover-derived
    edges and kernel tour, then shortcut. *)
Definition extend_christofides (g : Graph) (eulerian_circuit : list Z)
    : exn + list Z :=
  hamiltonian_of_walk g eulerian_circuit.

(** ** A small instance *)

Module Fixture.

Definition three_nodup : NoDup [0; 1; 2].
Proof. repeat constructor; simpl; intuition lia. Defined.

(** Three nodes, the cost of [(u, v)] being [u + 2 v]. *)
Definition triangle : Graph :=
  {| nodes := [0; 1; 2];
     cost_of := fun u v => inject_Z (u + 2 * v);
     nodes_nodup := three_nodup |}.

(** An extender that keeps the whole graph as kernel. *)
Definition whole_kernel (g : Graph) (exact_algo : ExactAlgo) (beta : num)
    : exn + Solution :=
  match exact_algo g with
  | inl e => inl e
  | inr r => inr (with_kernel_size r (len (nodes g)))
  end.

Definition args : Args :=
  {| a_graph := "g.atsp"; a_algo := "treedoubling";
     a_compute_tour := true; a_output_tour := true;
     a_beta_list := [Float 1]; a_multibeta := true |}.

(** A matrix stands for its list of asymmetry factors. *)
Definition ext : Externals :=
  {| Matrix := list Q;
     str_float := fun q =>
       String.append (str_int (Qnum q))
         (String.append "/" (str_int (Z.pos (Qden q))));
     parse_args := fun _ => inr args;
     parse := fun _ => inr [3; 2; 5]%Q;
     remove_dead_nodes := fun m => m;
     metricize_cost_matrix := fun m => m;
     to_graph := fun _ => triangle;
     asymmetry_factors := fun m => m;
     concorde_asym := fun g =>
       inr {| o_cost := Float (tour_cost (nodes g) g); o_tour := nodes g |};
     VcAlgo := unit;
     vertex_cover := tt;
     g_treedoubling := whole_kernel;
     g_christofides := fun g e _ b => whole_kernel g e b |}.

Definition sample : Solution :=
  {| cost := Float 9; tour := [0; 1; 2]; kernel_size := 3 |}.

End Fixture.

(** ** Vocabulary of the statements *)

(** The line with which [run] and [multibeta] announce their oracle, and the
    oracle they hand on. *)
Definition banner (compute_tour : bool) : event :=
  Stdout (if compute_tour then "Using exact computation"
          else "Using dummy tour").

Definition oracle {X : Externals} (compute_tour : bool) : ExactAlgo :=
  if compute_tour then concorde_asym else dummy_tour.

(** The proportion after [k] halvings, [1 / 2^k], in the very form the
    loop computes it. *)
Fixpoint pow2 (k : nat) : positive :=
  match k with
  | O => 1
  | S k' => pow2 k' * 2
  end.

Definition proportion (k : nat) : Q := 1 # pow2 k.

(** The index selected at iteration [k] (counted from 0) of a sweep over
    [n] factors: [round(proportion * n)]. *)
Definition sweep_index (n : Z) (k : nat) : Z :=
  py_round (proportion k * inject_Z n).

(** The beta of iteration [k]: the factor at the selected index when the
    index lies within the list, and the integer [1] when it does not. *)
Definition beta_at (facs : list Q) (k : nat) : num :=
  let i := sweep_index (len facs) k in
  if i >=? len facs then Int 1 else Float (nth (Z.to_nat i) facs 0%Q).

(** The number of halvings a sweep over [n] factors makes. *)
Definition sweep_halvings (n : nat) : nat :=
  Z.to_nat (Z.log2_up (2 * Z.of_nat n)).

(** The betas of a whole sweep, one per iteration. *)
Definition sweep_betas (facs : list Q) : list num :=
  map (beta_at facs) (seq 0 (S (sweep_halvings (List.length facs)))).

(** The betas the loop passes to its callee, read off a callee that records
    its argument. *)
Definition betas_passed (facs : list Q) (fuel : nat) : list num :=
  fst (multibeta_loop (fun beta => emit beta) facs fuel 1).

(** The factors of a sorted list without repetition, and their number. *)
Fixpoint distinct (l : list Q) : list Q :=
  match l with
  | a :: (b :: _) as l' =>
      if Qeq_bool a b then distinct l' else a :: distinct l'
  | _ => l
  end.

Definition distinct_count (l : list Q) : Z := len (distinct l).

(** The reading of the sweep in which every beta is a factor of the list:
    the beta of iteration [k] is the factor at index
    [round(proportion * number of factors)], the factors being counted by
    [count]. *)
Definition every_beta_is_indexed_factor (count : list Q -> Z)
    (facs : list Q) : Prop :=
  forall (fuel k : nat) (beta : num),
    nth_error (betas_passed facs fuel) k = Some beta ->
    exists f : Q,
      nth_error facs (Z.to_nat (sweep_index (count facs) k)) = Some f
      /\ beta = Float f.

(** A factor list with repetitions: 9, 8, 7, 6 and four times 5. *)
Definition repeated_factors : list Q :=
  sorted_reverse [5; 9; 5; 7; 5; 8; 5; 6]%Q.

(** Descending order on factors. *)
Definition desc (a b : Q) : Prop := (b <= a)%Q.

(** ** Further instances *)

Module Cases.

(** An explicit list of two betas for the Christofides-style extender. *)
Definition explicit_args : Args :=
  {| a_graph := "g.csv"; a_algo := "christofides";
     a_compute_tour := false; a_output_tour := false;
     a_beta_list := [Float 2; Int 0]; a_multibeta := false |}.

Definition explicit_argv : list string :=
  ["main.py"; "g.csv"; "-c"; "--only-kernel-size"; "-b"; "2,0"]%string.

Definition help_argv : list string := ["main.py"; "-h"]%string.

Definition sweep_argv : list string :=
  ["main.py"; "g.atsp"; "-t"; "--tour"; "--multibeta"]%string.

(** An extender that fails on the betas [bad] selects, as an exact solver
    that breaks down would make it, and keeps the whole graph as kernel on
    the others. *)
Definition fails_when (bad : num -> bool) (g : Graph)
    (exact_algo : ExactAlgo) (beta : num) : exn + Solution :=
  if bad beta then inl (ExternalError "concorde")
  else Fixture.whole_kernel g exact_algo beta.

Definition above_two (beta : num) : bool :=
  negb (Qle_bool (num_to_Q beta) 2).

Definition at_most_zero (beta : num) : bool :=
  Qle_bool (num_to_Q beta) 0.

(** The small instance with another command line, graph file and
    extender. *)
Definition ext_of (cli : list string -> exn + Args)
    (file : string -> exn + list Q)
    (extender : Graph -> ExactAlgo -> num -> exn + Solution) : Externals :=
  {| Matrix := list Q;
     str_float := @str_float Fixture.ext;
     parse_args := cli;
     parse := file;
     remove_dead_nodes := fun m => m;
     metricize_cost_matrix := fun m => m;
     to_graph := fun _ => Fixture.triangle;
     asymmetry_factors := fun m => m;
     concorde_asym := @concorde_asym Fixture.ext;
     VcAlgo := unit;
     vertex_cover := tt;
     g_treedoubling := extender;
     g_christofides := fun g e _ b => extender g e b |}.

(** The solution [whole_kernel] builds on the triangle from the dummy
    oracle. *)
Definition dummy_solution : Solution :=
  {| cost := Int 0; tour := [0; 1; 2]; kernel_size := 3 |}.

End Cases.

(** The five events of [main] between the argument parser and the runs. *)
Definition main_preamble (args : Args) : list event :=
  [Stdout "Parsed args, about to parse matrix";
   GraphFileRead (a_graph args);
   Stdout "Parsed matrix, about to process matrix";
   Stdout (String.concat ", "
             (header_fields (a_compute_tour args) (a_output_tour args)));
   Stdout "About to run"].

(** The three events of a run that succeeds. *)
Definition run_events {X : Externals} (g : Graph) (algo : string)
    (compute_tour output_tour : bool) (solution : Solution) (beta : num)
    : list event :=
  [banner compute_tour;
   Stdout (String.append "About to run " algo);
   Stdout (format_output solution (len (nodes g)) beta
             compute_tour output_tour)].

(** The three events with which [multibeta] reports its reference
    solution. *)
Definition reference_events {X : Externals} (g : Graph)
    (compute_tour output_tour : bool) (r : OracleResult) : list event :=
  [banner compute_tour; Stdout about_to_print_line;
   Stdout (format_output (with_kernel_size r (len (nodes g)))
             (len (nodes g)) (Int 0) compute_tour output_tour)].

(** ** The kernel of a beta *)






(** * Properties *)

(** ** The monad *)

Lemma bind_emit {E A : Type} (e : E) (k : unit -> M E A) :
  bind (emit e) k = (e :: fst (k tt), snd (k tt)).
Proof. unfold bind, emit. destruct (k tt); reflexivity. Qed.

Lemma bind_ret {E A B : Type} (a : A) (k : A -> M E B) :
  bind (ret a) k = k a.
Proof. unfold bind, ret. destruct (k a); reflexivity. Qed.

Lemma bind_raise {E A B : Type} (e : exn) (k : A -> M E B) :
  bind (raise e) k = raise e.
Proof. reflexivity. Qed.

Lemma bind_assoc {E A B C : Type} (m : M E A) (k : A -> M E B)
    (h : B -> M E C) :
  bind (bind m k) h = bind m (fun a => bind (k a) h).
Proof.
  destruct m as [out [a | e |]]; simpl; try reflexivity.
  destruct (k a) as [out' [b | e |]]; simpl; try reflexivity.
  destruct (h b) as [out'' r]; rewrite app_assoc; reflexivity.
Qed.

Lemma fst_bind_done {E A B : Type} (m : M E A) (k : A -> M E B) (a : A) :
  snd m = Done a -> fst (bind m k) = fst m ++ fst (k a).
Proof.
  destruct m as [out r]; simpl; intros ->. destruct (k a); reflexivity.
Qed.

#[global] Arguments bind : simpl never.
#[global] Arguments emit : simpl never.
#[global] Arguments ret : simpl never.
#[global] Arguments raise : simpl never.

Lemma lift_inr {E A : Type} (a : A) : @lift E A (inr a) = ret a.
Proof. reflexivity. Qed.

Lemma lift_inl {E A : Type} (e : exn) : @lift E A (inl e) = raise e.
Proof. reflexivity. Qed.

(** Push the events of a computation to the front, one step at a time. *)
Ltac run_monad :=
  unfold print;
  repeat (first [ rewrite bind_assoc | rewrite bind_emit | rewrite bind_ret
                | rewrite bind_raise | rewrite lift_inr | rewrite lift_inl ];
          cbv beta);
  cbn [fst snd].

(** ** The formatter and the header *)

Section FormatOutput.
Context {X : Externals}.

(** C5.  [format_output] joins with [", "] the fields beta, graph size and
    kernel size, then the tour cost exactly when [compute_tour] is set,
    then the tour, its node identifiers joined with a blank, exactly when
    [output_tour] is set.  The header of [main] names the same fields
    under the same conditions, one name per field, and [main] prints it
    once the arguments and the graph file are parsed. *)
Theorem format_output_fields (solution : Solution) (graph_size : Z)
    (beta : num) (compute_tour output_tour : bool) :
  format_output solution graph_size beta compute_tour output_tour
  = String.concat ", "
      ([str_num beta; str_int graph_size; str_int (kernel_size solution)]
       ++ (if compute_tour then [str_num (cost solution)] else [])
       ++ (if output_tour
           then [String.concat " " (map str_int (tour solution))]
           else []))
  /\ header_fields compute_tour output_tour
     = ["beta"%string; "graph_size"%string; "kernel_size"%string]
       ++ (if compute_tour then ["tour_cost"%string] else [])
       ++ (if output_tour then ["tour"%string] else [])
  /\ List.length
       (output_fields solution graph_size beta compute_tour output_tour)
     = List.length (header_fields compute_tour output_tour)
  /\ forall (fuel : nat) (argv : list string) (args : Args) (m : Matrix),
       len argv <> 1 ->
       parse_args argv = inr args ->
       parse (a_graph args) = inr m ->
       exists rest : list event,
         fst (main fuel argv)
         = [Stdout "Parsed args, about to parse matrix";
            GraphFileRead (a_graph args);
            Stdout "Parsed matrix, about to process matrix";
            Stdout (String.concat ", "
                      (header_fields (a_compute_tour args)
                         (a_output_tour args)));
            Stdout "About to run"] ++ rest.
Proof.
  repeat split.
  - unfold format_output, output_fields.
    destruct compute_tour, output_tour; reflexivity.
  - destruct compute_tour, output_tour; reflexivity.
  - destruct compute_tour, output_tour; reflexivity.
  - intros fuel argv args m Hlen Hargs Hparse.
    unfold main. apply Z.eqb_neq in Hlen. rewrite Hlen, Hargs.
    run_monad. rewrite Hparse. run_monad.
    eexists. reflexivity.
Qed.

End FormatOutput.

(** ** The single run *)

Section Run.
Context {X : Externals}.

Lemma run_treedoubling (g : Graph) (beta : num)
    (compute_tour output_tour : bool) :
  run g "treedoubling" beta compute_tour output_tour
  = match g_treedoubling g (oracle compute_tour) beta with
    | inr s =>
        ([banner compute_tour; Stdout "About to run treedoubling";
          Stdout (format_output s (len (nodes g)) beta
                    compute_tour output_tour)], Done tt)
    | inl e =>
        ([banner compute_tour; Stdout "About to run treedoubling"],
         Raised e)
    end.
Proof.
  unfold run, oracle, banner.
  destruct compute_tour; run_monad;
    match goal with
    | |- context [g_treedoubling ?a ?b ?c] =>
        destruct (g_treedoubling a b c)
    end; run_monad; reflexivity.
Qed.

Lemma run_christofides (g : Graph) (beta : num)
    (compute_tour output_tour : bool) :
  run g "christofides" beta compute_tour output_tour
  = match g_christofides g (oracle compute_tour) vertex_cover beta with
    | inr s =>
        ([banner compute_tour; Stdout "About to run christofides";
          Stdout (format_output s (len (nodes g)) beta
                    compute_tour output_tour)], Done tt)
    | inl e =>
        ([banner compute_tour; Stdout "About to run christofides"],
         Raised e)
    end.
Proof.
  unfold run, oracle, banner.
  destruct compute_tour; run_monad;
    match goal with
    | |- context [g_christofides ?a ?b ?c ?d] =>
        destruct (g_christofides a b c d)
    end; run_monad; reflexivity.
Qed.

Lemma run_invalid (g : Graph) (algo : string) (beta : num)
    (compute_tour output_tour : bool) :
  algo <> "treedoubling"%string ->
  algo <> "christofides"%string ->
  run g algo beta compute_tour output_tour
  = ([banner compute_tour],
     Raised (ValueError (String.append "invalid algo: " algo))).
Proof.
  intros Ht Hc. unfold run, banner.
  apply String.eqb_neq in Ht. apply String.eqb_neq in Hc.
  rewrite Ht, Hc.
  destruct compute_tour; run_monad; reflexivity.
Qed.

(** C6.  [run] raises the error for an invalid selector exactly when the
    selector is neither ['treedoubling'] nor ['christofides'], and it does
    so before any extender is called and without a solution line.  For a
    valid selector whose extender returns, nothing is raised and the
    output is the oracle banner, the announcement of the algorithm and
    one formatted solution line. *)
Theorem run_selector_error (g : Graph) (algo : string) (beta : num)
    (compute_tour output_tour : bool) :
  (algo <> "treedoubling"%string ->
   algo <> "christofides"%string ->
   run g algo beta compute_tour output_tour
   = ([banner compute_tour],
      Raised (ValueError (String.append "invalid algo: " algo))))
  /\ (forall s : Solution,
        algo = "treedoubling"%string ->
        g_treedoubling g (oracle compute_tour) beta = inr s ->
        run g algo beta compute_tour output_tour
        = ([banner compute_tour; Stdout "About to run treedoubling";
            Stdout (format_output s (len (nodes g)) beta
                      compute_tour output_tour)], Done tt))
  /\ (forall s : Solution,
        algo = "christofides"%string ->
        g_christofides g (oracle compute_tour) vertex_cover beta = inr s ->
        run g algo beta compute_tour output_tour
        = ([banner compute_tour; Stdout "About to run christofides";
            Stdout (format_output s (len (nodes g)) beta
                      compute_tour output_tour)], Done tt))
  /\ (forall s s' : Solution,
        g_treedoubling g (oracle compute_tour) beta = inr s ->
        g_christofides g (oracle compute_tour) vertex_cover beta = inr s' ->
        ((exists e : exn,
            snd (run g algo beta compute_tour output_tour) = Raised e)
         <-> algo <> "treedoubling"%string
             /\ algo <> "christofides"%string)).
Proof.
  split; [apply run_invalid |].
  split; [intros s -> Hs; rewrite run_treedoubling, Hs; reflexivity |].
  split; [intros s -> Hs; rewrite run_christofides, Hs; reflexivity |].
  intros s s' Hs Hs'. split.
  - intros [e He]. split; intros ->.
    + rewrite run_treedoubling, Hs in He. discriminate He.
    + rewrite run_christofides, Hs' in He. discriminate He.
  - intros [Ht Hc]. eexists. rewrite run_invalid by assumption. reflexivity.
Qed.

(** C7.  With [compute_tour] false the oracle is the dummy one: on every
    graph it returns cost [0] and a tour that holds exactly the graph's
    nodes, each once.  [run] hands it to the extender it selects, and
    [multibeta] takes its reference solution from it and makes every run
    of the sweep with [compute_tour] false. *)
Theorem dummy_oracle_when_tour_skipped :
  (forall graph : Graph,
      exists r : OracleResult,
        dummy_tour graph = inr r
        /\ o_cost r = Int 0
        /\ NoDup (o_tour r)
        /\ forall v : Z, In v (o_tour r) <-> In v (nodes graph))
  /\ (forall (g : Graph) (beta : num) (output_tour : bool),
        run g "treedoubling" beta false output_tour
        = match g_treedoubling g dummy_tour beta with
          | inr s =>
              ([Stdout "Using dummy tour";
                Stdout "About to run treedoubling";
                Stdout (format_output s (len (nodes g)) beta
                          false output_tour)], Done tt)
          | inl e =>
              ([Stdout "Using dummy tour";
                Stdout "About to run treedoubling"], Raised e)
          end)
  /\ (forall (g : Graph) (beta : num) (output_tour : bool),
        run g "christofides" beta false output_tour
        = match g_christofides g dummy_tour vertex_cover beta with
          | inr s =>
              ([Stdout "Using dummy tour";
                Stdout "About to run christofides";
                Stdout (format_output s (len (nodes g)) beta
                          false output_tour)], Done tt)
          | inl e =>
              ([Stdout "Using dummy tour";
                Stdout "About to run christofides"], Raised e)
          end)
  /\ (forall (fuel : nat) (m : Matrix) (algo : string)
             (output_tour : bool),
        let g := to_graph m in
        let sweep :=
          multibeta_loop (fun beta => run g algo beta false output_tour)
            (sorted_reverse (asymmetry_factors m)) fuel 1 in
        multibeta fuel m algo false output_tour
        = ([Stdout "Using dummy tour"; Stdout about_to_print_line;
            Stdout (format_output
                      {| cost := Int 0; tour := nodes g;
                         kernel_size := len (nodes g) |}
                      (len (nodes g)) (Int 0) false output_tour)]
           ++ fst sweep, snd sweep)).
Proof.
  split; [| split; [| split]].
  - intros graph. eexists. split; [reflexivity |]. simpl.
    split; [reflexivity |]. split; [apply nodes_nodup | tauto].
  - intros g beta output_tour. apply (run_treedoubling g beta false).
  - intros g beta output_tour. apply (run_christofides g beta false).
  - intros fuel m algo output_tour g sweep. unfold multibeta.
    run_monad. unfold dummy_tour. run_monad. reflexivity.
Qed.

(** C2.  The sweep emits its reference solution before the loop starts:
    after the oracle banner and the line announcing it, the first
    solution line formats the result of the exact oracle on the whole
    graph with beta [0] and the node count as kernel size, so that its
    first three fields are ["0"] and twice the node count; everything the
    runs of the loop print comes after it. *)
Theorem multibeta_reference_first (fuel : nat) (m : Matrix)
    (algo : string) (compute_tour output_tour : bool) (r : OracleResult) :
  oracle compute_tour (to_graph m) = inr r ->
  let g := to_graph m in
  let reference :=
    {| cost := o_cost r; tour := o_tour r;
       kernel_size := len (nodes g) |} in
  let sweep :=
    multibeta_loop (fun beta => run g algo beta compute_tour output_tour)
      (sorted_reverse (asymmetry_factors m)) fuel 1 in
  multibeta fuel m algo compute_tour output_tour
  = ([banner compute_tour; Stdout about_to_print_line;
      Stdout (format_output reference (len (nodes g)) (Int 0)
                compute_tour output_tour)] ++ fst sweep, snd sweep)
  /\ exists more : list string,
       output_fields reference (len (nodes g)) (Int 0)
         compute_tour output_tour
       = "0"%string :: str_int (len (nodes g))
           :: str_int (len (nodes g)) :: more.
Proof.
  intros Hr g reference sweep. split.
  - unfold multibeta, banner. unfold oracle in Hr.
    destruct compute_tour; run_monad; rewrite Hr; run_monad;
      reflexivity.
  - unfold output_fields.
    destruct compute_tour, output_tour; eexists; reflexivity.
Qed.

(** C9.  Called with no argument ([sys.argv] holds the program name
    only), [main] prints the help and exits: the graph file is not read
    and nothing else is printed. *)
Theorem main_no_arguments (fuel : nat) (program : string) :
  main fuel [program] = ([HelpPrinted], Raised SystemExit)
  /\ forall e : event,
       In e (fst (main fuel [program])) ->
       (forall path : string, e <> GraphFileRead path)
       /\ (forall line : string, e <> Stdout line).
Proof.
  assert (H : main fuel [program] = ([HelpPrinted], Raised SystemExit)).
  { unfold main. simpl. run_monad. reflexivity. }
  split; [exact H |].
  rewrite H. simpl. intros e [<- | []]. split; discriminate.
Qed.

End Run.

(** ** The random tour *)

Lemma set_item_length (l : list Z) (i : nat) (v : Z) :
  List.length (set_item l i v) = List.length l.
Proof.
  revert i; induction l as [| a l IH]; intros [| i]; simpl; auto.
Qed.

Lemma nth_set_item (l : list Z) (i j : nat) (v : Z) :
  (i < List.length l)%nat ->
  nth j (set_item l i v) 0 = if Nat.eqb i j then v else nth j l 0.
Proof.
  revert i j; induction l as [| a l IH]; intros i j Hi; simpl in Hi.
  - lia.
  - destruct i as [| i], j as [| j]; simpl; try reflexivity.
    apply IH. lia.
Qed.

(** Overwriting a cell trades the value it held for the new one. *)
Lemma set_item_perm (l : list Z) (i : nat) (v : Z) :
  (i < List.length l)%nat ->
  Permutation (nth i l 0 :: set_item l i v) (v :: l).
Proof.
  revert i; induction l as [| a l IH]; intros i Hi; simpl in Hi.
  - lia.
  - destruct i as [| i]; simpl.
    + apply perm_swap.
    + etransitivity; [apply perm_swap |].
      etransitivity; [apply perm_skip, IH; lia |].
      apply perm_swap.
Qed.

Lemma swap_items_perm (x : list Z) (i j : nat) :
  (i < List.length x)%nat -> (j < List.length x)%nat ->
  Permutation (swap_items x i j) x.
Proof.
  intros Hi Hj. unfold swap_items.
  set (y := set_item x i (nth j x 0)).
  assert (Hy : Permutation (nth i x 0 :: y) (nth j x 0 :: x))
    by (apply set_item_perm; assumption).
  assert (Hj' : (j < List.length y)%nat)
    by (unfold y; rewrite set_item_length; assumption).
  pose proof (set_item_perm y j (nth i x 0) Hj') as Hz.
  assert (Hnth : nth j y 0 = nth j x 0).
  { unfold y. rewrite nth_set_item by assumption.
    destruct (Nat.eqb_spec i j) as [-> | _]; reflexivity. }
  rewrite Hnth in Hz.
  apply Permutation_cons_inv with (a := nth j x 0).
  etransitivity; [exact Hz | exact Hy].
Qed.

Lemma swap_items_length (x : list Z) (i j : nat) :
  List.length (swap_items x i j) = List.length x.
Proof. unfold swap_items. rewrite !set_item_length. reflexivity. Qed.

Lemma shuffle_from_perm (randbelow : nat -> nat) (i : nat) (x : list Z) :
  (i < List.length x)%nat ->
  Permutation (shuffle_from randbelow i x) x.
Proof.
  revert x; induction i as [| i IH]; intros x Hi.
  - reflexivity.
  - cbn [shuffle_from].
    assert (Hj : (randbelow (S (S i)) mod S (S i) < List.length x)%nat).
    { pose proof (Nat.mod_upper_bound (randbelow (S (S i))) (S (S i))).
      lia. }
    etransitivity.
    + apply IH. rewrite swap_items_length. lia.
    + apply swap_items_perm; assumption.
Qed.

Lemma shuffle_perm (randbelow : nat -> nat) (x : list Z) :
  Permutation (shuffle randbelow x) x.
Proof.
  unfold shuffle. destruct x as [| a x]; [reflexivity |].
  apply shuffle_from_perm. simpl. lia.
Qed.

(** C10.  Whatever the generator draws, the tour of [random_tour(g)] is a
    permutation of the nodes of [g], each node once, and the cost is the
    closed-tour cost of that very tour in [g], with one edge per node. *)
Theorem random_tour_permutation (randbelow : nat -> nat) (g : Graph) :
  let r := random_tour randbelow g in
  Permutation (o_tour r) (nodes g)
  /\ NoDup (o_tour r)
  /\ (forall v : Z, In v (o_tour r) <-> In v (nodes g))
  /\ o_cost r = Float (tour_cost (o_tour r) g)
  /\ List.length (closed_edges (o_tour r)) = List.length (nodes g).
Proof.
  cbn zeta. unfold random_tour; cbn [o_tour o_cost].
  pose proof (shuffle_perm randbelow (nodes g)) as Hp.
  split; [exact Hp |].
  split; [apply (Permutation_NoDup (Permutation_sym Hp)), nodes_nodup |].
  split.
  { intros v; split; apply Permutation_in;
      [exact Hp | exact (Permutation_sym Hp)]. }
  split; [reflexivity |].
  rewrite <- (Permutation_length Hp).
  unfold closed_edges. rewrite length_combine, length_app.
  destruct (shuffle randbelow (nodes g)) as [| a t]; [reflexivity |].
  cbn [tl firstn List.length]. lia.
Qed.

(** ** The extenders *)

Lemma visited_mem_In (v : Z) (l : list Z) :
  visited_mem v l = true <-> In v l.
Proof.
  unfold visited_mem. rewrite existsb_exists. split.
  - intros [u [Hu Heq]]. apply Z.eqb_eq in Heq. subst u. exact Hu.
  - intros Hv. exists v. split; [exact Hv | apply Z.eqb_refl].
Qed.

Lemma visited_mem_not_In (v : Z) (l : list Z) :
  visited_mem v l = false <-> ~ In v l.
Proof.
  rewrite <- visited_mem_In. destruct (visited_mem v l); split; congruence.
Qed.

(** The shortcut keeps exactly the nodes of the walk not yet visited. *)
Lemma shortcut_In (walk visited : list Z) (v : Z) :
  In v (shortcut visited walk) <-> In v walk /\ ~ In v visited.
Proof.
  revert visited; induction walk as [| u walk IH]; intros visited; simpl.
  - tauto.
  - destruct (visited_mem u visited) eqn:Hu.
    + apply visited_mem_In in Hu. rewrite IH.
      split; [tauto |]. intros [[<- | Hv] Hn]; tauto.
    + apply visited_mem_not_In in Hu. simpl. rewrite IH. simpl.
      split.
      * intros [<- | [Hv Hn]]; [tauto |]. split; [tauto |]. intros H.
        apply Hn. right. exact H.
      * intros [[<- | Hv] Hn]; [tauto |].
        destruct (Z.eq_dec u v) as [-> | Hne]; [tauto |].
        right. split; [exact Hv |]. intros [H | H]; tauto.
Qed.

Lemma shortcut_NoDup (walk visited : list Z) :
  NoDup (shortcut visited walk).
Proof.
  revert visited; induction walk as [| u walk IH]; intros visited; simpl.
  - constructor.
  - destruct (visited_mem u visited); [apply IH |].
    constructor; [| apply IH].
    rewrite shortcut_In. simpl. tauto.
Qed.

Lemma places_every_node_spec (g : Graph) (t : list Z) :
  places_every_node g t = true <-> forall v : Z, In v (nodes g) <-> In v t.
Proof.
  unfold places_every_node.
  rewrite andb_true_iff, !forallb_forall. split.
  - intros [H1 H2] v. split; intros Hv.
    + apply visited_mem_In, H1, Hv.
    + apply visited_mem_In, H2, Hv.
  - intros H. split; intros v Hv; apply visited_mem_In, H, Hv.
Qed.

Lemma hamiltonian_of_walk_spec (g : Graph) (walk : list Z) :
  match hamiltonian_of_walk g walk with
  | inr t => Permutation t (nodes g) /\ NoDup t
  | inl _ => ~ (forall v : Z, In v (nodes g) <-> In v walk)
  end.
Proof.
  unfold hamiltonian_of_walk.
  destruct (places_every_node g (shortcut [] walk)) eqn:Hp.
  - pose proof (proj1 (places_every_node_spec g _) Hp) as Hin.
    split; [| apply shortcut_NoDup].
    apply NoDup_Permutation;
      [apply shortcut_NoDup | apply nodes_nodup |].
    intros v. symmetry. apply Hin.
  - intros Hall.
    assert (Ht : places_every_node g (shortcut [] walk) = true).
    { apply places_every_node_spec. intros v.
      rewrite shortcut_In, Hall. simpl. tauto. }
    congruence.
Qed.

(** C4.  Each extender either returns a tour that is a permutation of the
    graph's node set, no node twice and none left out, or fails; and it
    fails only when its closed walk does not visit exactly the nodes of the
    graph, so a tour that would miss a node is never returned. *)
Theorem extender_tour_is_permutation (g : Graph) (spanning : tree)
    (kernel_tour eulerian_circuit : list Z) :
  match extend_treedoubling g spanning kernel_tour with
  | inr t => Permutation t (nodes g) /\ NoDup t
  | inl _ =>
      ~ (forall v : Z,
            In v (nodes g)
            <-> In v (splice kernel_tour (euler_walk spanning)))
  end
  /\ match extend_christofides g eulerian_circuit with
     | inr t => Permutation t (nodes g) /\ NoDup t
     | inl _ => ~ (forall v : Z, In v (nodes g) <-> In v eulerian_circuit)
     end.
Proof.
  split; apply hamiltonian_of_walk_spec.
Qed.

(** The doubled star on the triangle, without a kernel and with the kernel
    tour 2, 1: every node is placed once. *)
Example extend_treedoubling_star :
  extend_treedoubling Fixture.triangle (Node 0 [Node 1 []; Node 2 []]) []
  = inr [0; 1; 2]
  /\ extend_treedoubling Fixture.triangle (Node 0 [Node 1 []; Node 2 []])
       [2; 1]
     = inr [0; 2; 1].
Proof. split; reflexivity. Qed.

(** A spanning structure that does not reach node 2 makes the extender
    fail. *)
Example extend_treedoubling_unreached :
  extend_treedoubling Fixture.triangle (Node 0 [Node 1 []]) []
  = inl (ExternalError "structural error")
  /\ extend_christofides Fixture.triangle [0; 1; 0]
     = inl (ExternalError "structural error").
Proof. split; reflexivity. Qed.

(** ** The multi-beta sweep *)

(** *** Rounding and the selected index *)

Lemma proportion_start : proportion 0 = 1%Q.
Proof. reflexivity. Qed.

Lemma proportion_halve (k : nat) : (proportion k / 2)%Q = proportion (S k).
Proof. reflexivity. Qed.

Lemma pow2_Z (k : nat) : Z.pos (pow2 k) = 2 ^ Z.of_nat k.
Proof.
  induction k as [| k IH].
  - reflexivity.
  - rewrite Nat2Z.inj_succ, Z.pow_succ_r by lia.
    cbn [pow2]. rewrite Pos2Z.inj_mul, IH. lia.
Qed.

(** [round] of [n / d], on integers. *)
Lemma sweep_index_unfold (n : Z) (k : nat) :
  sweep_index n k
  = let q := Z.pos (pow2 k) in
    match 2 * (n mod q) ?= q with
    | Lt => n / q
    | Gt => n / q + 1
    | Eq => if Z.even (n / q) then n / q else n / q + 1
    end.
Proof.
  unfold sweep_index, py_round, proportion, Qmult, inject_Z.
  cbn [Qnum Qden]. rewrite Z.mul_1_l, Pos.mul_1_r. reflexivity.
Qed.

Lemma sweep_index_bounds (n : Z) (k : nat) :
  let q := Z.pos (pow2 k) in
  let z := sweep_index n k in
  (2 * z - 1) * q <= 2 * n <= (2 * z + 1) * q.
Proof.
  cbn zeta. rewrite sweep_index_unfold. cbn zeta.
  set (q := Z.pos (pow2 k)).
  assert (Hq : 0 < q) by (unfold q; lia).
  pose proof (Z.div_mod n q ltac:(lia)) as Hdm.
  pose proof (Z.mod_pos_bound n q Hq) as Hr.
  destruct (Z.compare_spec (2 * (n mod q)) q) as [He | Hl | Hg];
    [destruct (Z.even (n / q)) |..]; nia.
Qed.

Lemma sweep_index_zero (n : Z) (k : nat) :
  0 <= n -> (sweep_index n k = 0 <-> 2 * n <= Z.pos (pow2 k)).
Proof.
  intros Hn. split.
  - intros Hz. pose proof (sweep_index_bounds n k) as Hb. cbn zeta in Hb.
    rewrite Hz in Hb. lia.
  - intros Hle. rewrite sweep_index_unfold. cbn zeta.
    set (q := Z.pos (pow2 k)) in *.
    assert (Hq : 0 < q) by (unfold q; lia).
    assert (Hlt : n < q) by lia.
    rewrite (Z.div_small n q), (Z.mod_small n q) by lia.
    destruct (Z.compare_spec (2 * n) q); [reflexivity | reflexivity | lia].
Qed.

Lemma sweep_index_nonneg (n : Z) (k : nat) : 0 <= n -> 0 <= sweep_index n k.
Proof.
  intros Hn. pose proof (sweep_index_bounds n k) as Hb. cbn zeta in Hb.
  assert (Hq : 0 < Z.pos (pow2 k)) by lia. nia.
Qed.

Lemma sweep_index_first (n : Z) : sweep_index n 0 = n.
Proof.
  rewrite sweep_index_unfold. cbn zeta. cbn [pow2].
  rewrite Z.mod_1_r, Z.div_1_r. reflexivity.
Qed.

Lemma sweep_index_antitone (n : Z) (k : nat) :
  0 <= n -> sweep_index n (S k) <= sweep_index n k.
Proof.
  intros Hn.
  pose proof (sweep_index_bounds n k) as Hb.
  pose proof (sweep_index_bounds n (S k)) as Hb'.
  pose proof (sweep_index_nonneg n k Hn) as H0.
  cbn zeta in *. cbn [pow2] in Hb'. rewrite Pos2Z.inj_mul in Hb'.
  assert (Hq : 0 < Z.pos (pow2 k)) by lia. nia.
Qed.

Lemma sweep_index_within (n : Z) (k : nat) :
  1 <= n -> sweep_index n (S k) < n.
Proof.
  intros Hn. rewrite sweep_index_unfold. cbn zeta.
  set (q := Z.pos (pow2 (S k))).
  assert (Hq : 2 <= q).
  { unfold q. cbn [pow2]. rewrite Pos2Z.inj_mul. lia. }
  pose proof (Z.div_mod n q ltac:(lia)) as Hdm.
  pose proof (Z.mod_pos_bound n q ltac:(lia)) as Hr.
  assert (Hf : 0 <= n / q) by (apply Z.div_pos; lia).
  destruct (Z.compare_spec (2 * (n mod q)) q) as [He | Hl | Hg].
  - destruct (Z.even (n / q)) eqn:Hev; [nia |].
    assert (n / q <> 0) by (intros H0; rewrite H0 in Hev; discriminate).
    nia.
  - nia.
  - nia.
Qed.

Lemma sweep_halvings_spec (n : nat) :
  (forall k : nat,
      (k < sweep_halvings n)%nat -> Z.pos (pow2 k) < 2 * Z.of_nat n)
  /\ 2 * Z.of_nat n <= Z.pos (pow2 (sweep_halvings n)).
Proof.
  unfold sweep_halvings. set (a := 2 * Z.of_nat n).
  pose proof (Z.log2_up_nonneg a) as Hnn.
  destruct n as [| n].
  - split; [intros k Hk; simpl in Hk; lia | simpl; lia].
  - assert (Ha : 1 < a) by (unfold a; lia).
    pose proof (Z.log2_up_spec a Ha) as [Hlo Hhi].
    split.
    + intros k Hk. rewrite pow2_Z.
      apply Z.le_lt_trans with (2 := Hlo).
      apply Z.pow_le_mono_r; lia.
    + rewrite pow2_Z, Z2Nat.id by lia. exact Hhi.
Qed.

Lemma getitem_within {A : Type} (l : list A) (i : Z) (d : A) :
  0 <= i < len l -> getitem l i = inr (nth (Z.to_nat i) l d).
Proof.
  intros [H0 Hl]. unfold getitem.
  destruct (Z.ltb_spec i 0); [lia |].
  destruct (Z.leb_spec 0 i); [| lia].
  destruct (Z.ltb_spec i (len l)); [| lia]. cbn [andb].
  rewrite (nth_error_nth' l d); [reflexivity |]. unfold len in Hl. lia.
Qed.

Lemma select_beta {E : Type} (facs : list Q) (k : nat) :
  (if sweep_index (len facs) k >=? len facs then ret (Int 1)
   else f <- lift (getitem facs (sweep_index (len facs) k)) ;; ret (Float f))
  = (ret (beta_at facs k) : M E num).
Proof.
  unfold beta_at. cbn zeta.
  pose proof (sweep_index_nonneg (len facs) k ltac:(unfold len; lia)) as H0.
  destruct (Z.geb_spec (sweep_index (len facs) k) (len facs)) as [Hge | Hlt];
    [reflexivity |].
  rewrite (getitem_within facs _ 0%Q) by lia.
  rewrite lift_inr, bind_ret. reflexivity.
Qed.

Lemma multibeta_loop_step {E : Type} (body : num -> M E unit)
    (facs : list Q) (fuel k : nat) :
  multibeta_loop body facs (S fuel) (proportion k)
  = (body (beta_at facs k) ;;
     if sweep_index (len facs) k >? 0
     then multibeta_loop body facs fuel (proportion (S k))
     else ret tt).
Proof.
  cbn [multibeta_loop].
  change (py_round (proportion k * inject_Z (len facs)))
    with (sweep_index (len facs) k).
  rewrite select_beta, bind_ret. reflexivity.
Qed.

(** The loop started after [k] halvings, when [j] more are to come. *)
Lemma multibeta_loop_unroll {E : Type} (body : num -> M E unit)
    (facs : list Q) (j k fuel : nat) :
  (forall k' : nat,
      (k <= k' < k + j)%nat -> 0 < sweep_index (len facs) k') ->
  sweep_index (len facs) (k + j) = 0 ->
  (j < fuel)%nat ->
  multibeta_loop body facs fuel (proportion k)
  = for_each body (map (beta_at facs) (seq k (S j))).
Proof.
  revert k fuel; induction j as [| j IH]; intros k fuel Hpos Hzero Hfuel;
    (destruct fuel as [| fuel]; [lia |]); rewrite multibeta_loop_step.
  - rewrite Nat.add_0_r in Hzero. rewrite Hzero. reflexivity.
  - assert (Hk : 0 < sweep_index (len facs) k) by (apply Hpos; lia).
    apply Z.gtb_lt in Hk. rewrite Hk.
    rewrite (IH (S k) fuel).
    + reflexivity.
    + intros k' Hk'. apply Hpos. lia.
    + rewrite <- Hzero. f_equal. lia.
    + lia.
Qed.

Lemma sweep_index_halvings (facs : list Q) :
  (forall k : nat,
      (k < sweep_halvings (List.length facs))%nat ->
      0 < sweep_index (len facs) k)
  /\ sweep_index (len facs) (sweep_halvings (List.length facs)) = 0.
Proof.
  destruct (sweep_halvings_spec (List.length facs)) as [Hlt Hge].
  assert (Hn : 0 <= len facs) by (unfold len; lia).
  split.
  - intros k Hk. pose proof (sweep_index_nonneg (len facs) k Hn) as H0.
    pose proof (sweep_index_zero (len facs) k Hn) as Hz.
    specialize (Hlt k Hk). unfold len in *.
    destruct (Z.eq_dec (sweep_index (Z.of_nat (List.length facs)) k) 0)
      as [He | Hne]; [| lia].
    apply Hz in He. lia.
  - apply sweep_index_zero; [exact Hn | exact Hge].
Qed.

(** With enough fuel the loop calls its callee on the betas of the sweep,
    in order, and stops. *)
Lemma multibeta_loop_for_each {E : Type} (body : num -> M E unit)
    (facs : list Q) (fuel : nat) :
  (sweep_halvings (List.length facs) < fuel)%nat ->
  multibeta_loop body facs fuel 1 = for_each body (sweep_betas facs).
Proof.
  intros Hfuel. destruct (sweep_index_halvings facs) as [Hpos Hzero].
  apply (multibeta_loop_unroll body facs
           (sweep_halvings (List.length facs)) 0 fuel).
  - intros k' Hk'. apply Hpos. lia.
  - exact Hzero.
  - exact Hfuel.
Qed.

Lemma for_each_emit {A : Type} (l : list A) :
  for_each (fun a => emit a) l = (l, Done tt).
Proof.
  induction l as [| a l IH]; [reflexivity |].
  cbn [for_each]. rewrite bind_emit, IH. reflexivity.
Qed.

Lemma betas_passed_sweep (facs : list Q) (fuel : nat) :
  (sweep_halvings (List.length facs) < fuel)%nat ->
  betas_passed facs fuel = sweep_betas facs.
Proof.
  intros Hfuel. unfold betas_passed.
  rewrite multibeta_loop_for_each by exact Hfuel.
  rewrite for_each_emit. reflexivity.
Qed.

(** *** The sorted factor list *)

Lemma insert_desc_In (x : Q) (l : list Q) (z : Q) :
  In z (insert_desc x l) <-> z = x \/ In z l.
Proof.
  induction l as [| y l IH]; simpl.
  - intuition congruence.
  - destruct (Qle_bool y x); simpl; [intuition congruence |].
    rewrite IH. intuition congruence.
Qed.

Lemma insert_desc_sorted (x : Q) (l : list Q) :
  StronglySorted desc l -> StronglySorted desc (insert_desc x l).
Proof.
  induction l as [| y l IH]; intros Hs; simpl.
  - repeat constructor.
  - inversion Hs as [| y' l' Hl Hall]; subst.
    destruct (Qle_bool y x) eqn:Hyx.
    + apply Qle_bool_iff in Hyx.
      constructor; [exact Hs |].
      constructor; [exact Hyx |].
      revert Hall. apply Forall_impl. intros b Hb. unfold desc in *.
      apply Qle_trans with y; assumption.
    + assert (Hxy : (x <= y)%Q).
      { apply Qlt_le_weak, Qnot_le_lt. intros H.
        apply Qle_bool_iff in H. congruence. }
      constructor; [apply IH; exact Hl |].
      apply Forall_forall. intros b Hb. apply insert_desc_In in Hb.
      destruct Hb as [-> | Hb]; [exact Hxy |].
      rewrite Forall_forall in Hall. apply Hall, Hb.
Qed.

Lemma sorted_reverse_sorted (l : list Q) :
  StronglySorted desc (sorted_reverse l).
Proof.
  induction l as [| x l IH]; simpl.
  - constructor.
  - apply insert_desc_sorted, IH.
Qed.

Lemma sorted_reverse_In (l : list Q) (z : Q) :
  In z (sorted_reverse l) <-> In z l.
Proof.
  induction l as [| x l IH]; simpl; [tauto |].
  rewrite insert_desc_In, IH. intuition congruence.
Qed.

Lemma sorted_nth (l : list Q) (i j : nat) :
  StronglySorted desc l ->
  (i <= j < List.length l)%nat ->
  (nth j l 0 <= nth i l 0)%Q.
Proof.
  intros Hs; revert i j; induction Hs as [| a l Hs IH Hall]; intros i j Hij;
    simpl in Hij; [lia |].
  destruct i as [| i], j as [| j]; simpl; try lia.
  - apply Qle_refl.
  - rewrite Forall_forall in Hall. apply Hall, nth_In. lia.
  - apply IH. lia.
Qed.

Lemma sweep_index_antitone_le (n : Z) (i j : nat) :
  0 <= n -> (i <= j)%nat -> sweep_index n j <= sweep_index n i.
Proof.
  intros Hn Hij; induction Hij as [| j Hij IH]; [lia |].
  pose proof (sweep_index_antitone n j Hn). lia.
Qed.

(** From the second iteration on the index lies within the list, and a
    smaller index holds a larger factor. *)
Lemma beta_at_monotone_after_first (l : list Q) (i j : nat) :
  (1 <= i <= j)%nat ->
  num_le (beta_at (sorted_reverse l) i) (beta_at (sorted_reverse l) j).
Proof.
  intros [Hi1 Hij]. set (facs := sorted_reverse l).
  assert (Hn : 0 <= len facs) by (unfold len; lia).
  pose proof (sweep_index_antitone_le (len facs) i j Hn Hij) as Hanti.
  pose proof (sweep_index_nonneg (len facs) j Hn) as Hj0.
  destruct i as [| i]; [lia |].
  unfold beta_at, num_le. cbn zeta.
  destruct (Z.geb_spec (sweep_index (len facs) (S i)) (len facs))
    as [Hi | Hi];
    destruct (Z.geb_spec (sweep_index (len facs) j) (len facs)) as [Hj | Hj];
    cbn [num_to_Q].
  - apply Qle_refl.
  - pose proof (sweep_index_within (len facs) i ltac:(lia)). lia.
  - lia.
  - apply sorted_nth; [apply sorted_reverse_sorted |].
    unfold len in *. lia.
Qed.


Lemma nth_error_sweep_betas (facs : list Q) (k : nat) :
  (k <= sweep_halvings (List.length facs))%nat ->
  nth_error (sweep_betas facs) k = Some (beta_at facs k).
Proof.
  intros Hk. unfold sweep_betas.
  rewrite nth_error_map, nth_error_seq.
  destruct (Nat.ltb_spec k (S (sweep_halvings (List.length facs)))); [| lia].
  reflexivity.
Qed.

Lemma nth_error_sweep_betas_inv (facs : list Q) (k : nat) (b : num) :
  nth_error (sweep_betas facs) k = Some b -> b = beta_at facs k.
Proof.
  intros Hb.
  assert (Hk : (k < List.length (sweep_betas facs))%nat)
    by (apply nth_error_Some; congruence).
  unfold sweep_betas in Hk. rewrite length_map, length_seq in Hk.
  rewrite nth_error_sweep_betas in Hb by lia. congruence.
Qed.

(** *** The sweep as a whole *)

Lemma snd_bind {E A B : Type} (m : M E A) (k : A -> M E B) :
  snd (bind m k)
  = match snd m with
    | Done a => snd (k a)
    | Raised e => Raised e
    | OutOfFuel => OutOfFuel
    end.
Proof.
  destruct m as [out [a | e |]]; unfold bind; try reflexivity.
  cbn [snd]. destruct (k a); reflexivity.
Qed.

Lemma for_each_returns {E A : Type} (body : A -> M E unit) (l : list A) :
  (forall a : A, snd (body a) <> OutOfFuel) ->
  snd (for_each body l) <> OutOfFuel.
Proof.
  intros Hbody; induction l as [| a l IH]; cbn [for_each].
  - discriminate.
  - rewrite snd_bind. specialize (Hbody a).
    destruct (snd (body a)); [exact IH | discriminate | congruence].
Qed.

Lemma run_returns {X : Externals} (g : Graph) (algo : string) (beta : num)
    (compute_tour output_tour : bool) :
  snd (run g algo beta compute_tour output_tour) <> OutOfFuel.
Proof.
  destruct (String.eqb_spec algo "treedoubling") as [-> | Ht].
  { rewrite run_treedoubling.
    destruct (g_treedoubling g (oracle compute_tour) beta); discriminate. }
  destruct (String.eqb_spec algo "christofides") as [-> | Hc].
  { rewrite run_christofides.
    destruct (g_christofides g (oracle compute_tour) vertex_cover beta);
      discriminate. }
  rewrite run_invalid by assumption. discriminate.
Qed.

Lemma multibeta_returns {X : Externals} (fuel : nat) (m : Matrix)
    (algo : string) (compute_tour output_tour : bool) :
  (sweep_halvings (List.length (sorted_reverse (asymmetry_factors m)))
   < fuel)%nat ->
  snd (multibeta fuel m algo compute_tour output_tour) <> OutOfFuel.
Proof.
  intros Hfuel. unfold multibeta.
  rewrite multibeta_loop_for_each by exact Hfuel.
  assert (Hloop :
    snd (for_each
           (fun beta => run (to_graph m) algo beta compute_tour output_tour)
           (sweep_betas (sorted_reverse (asymmetry_factors m))))
    <> OutOfFuel).
  { apply for_each_returns. intros b. apply run_returns. }
  destruct compute_tour; run_monad;
    match goal with
    | |- context [lift (?f ?g)] => destruct (f g)
    end; run_monad; try discriminate; exact Hloop.
Qed.

(** C3.  For every factor list, the empty one included, the loop of the
    sweep terminates: the selected index is positive during the first
    [sweep_halvings] iterations and zero at the next one, and with fuel for
    these iterations the loop runs exactly them, the zero-index iteration
    last, and returns; so does [multibeta] itself. *)
Theorem multibeta_loop_terminates (facs : list Q) :
  let last := sweep_halvings (List.length facs) in
  (forall k : nat, (k < last)%nat -> 0 < sweep_index (len facs) k)
  /\ sweep_index (len facs) last = 0
  /\ List.length (sweep_betas facs) = S last
  /\ (forall fuel : nat,
        (last < fuel)%nat ->
        multibeta_loop (fun beta => emit beta) facs fuel 1
        = (sweep_betas facs, Done tt))
  /\ (forall (E : Type) (body : num -> M E unit) (fuel : nat),
        (last < fuel)%nat ->
        multibeta_loop body facs fuel 1 = for_each body (sweep_betas facs))
  /\ (forall (X : Externals) (m : Matrix) (algo : string)
             (compute_tour output_tour : bool) (fuel : nat),
        sorted_reverse (asymmetry_factors m) = facs ->
        (last < fuel)%nat ->
        snd (multibeta fuel m algo compute_tour output_tour) <> OutOfFuel).
Proof.
  cbn zeta. destruct (sweep_index_halvings facs) as [Hpos Hzero].
  split; [exact Hpos |]. split; [exact Hzero |].
  split; [unfold sweep_betas; rewrite length_map, length_seq; reflexivity |].
  split.
  { intros fuel Hfuel.
    rewrite multibeta_loop_for_each by exact Hfuel. apply for_each_emit. }
  split.
  { intros E body fuel Hfuel. apply multibeta_loop_for_each, Hfuel. }
  intros X m algo compute_tour output_tour fuel <- Hfuel.
  apply multibeta_returns, Hfuel.
Qed.

(** C1, as amended.  With the proportion starting at 1 and halved at each
    iteration, the beta passed at iteration [k] is the factor at index
    [round(proportion * number of factors)] of the descending list whenever
    that index lies within the list, which it does at every iteration but
    the first; at the first iteration the index is the length of the list
    and the beta passed is the integer [1]. *)
Theorem multibeta_beta_selection (facs : list Q) (fuel : nat) :
  (sweep_halvings (List.length facs) < fuel)%nat ->
  let last := sweep_halvings (List.length facs) in
  let betas := betas_passed facs fuel in
  proportion 0 = 1%Q
  /\ (forall k : nat, proportion (S k) = (proportion k / 2)%Q)
  /\ (forall (E : Type) (body : num -> M E unit),
        multibeta_loop body facs fuel 1 = for_each body betas)
  /\ List.length betas = S last
  /\ sweep_index (len facs) 0 = len facs
  /\ nth_error betas 0 = Some (Int 1)
  /\ (forall k : nat,
        (1 <= k <= last)%nat ->
        exists f : Q,
          nth_error facs (Z.to_nat (sweep_index (len facs) k)) = Some f
          /\ nth_error betas k = Some (Float f)).
Proof.
  intros Hfuel last betas.
  assert (Hb : betas = sweep_betas facs)
    by (apply betas_passed_sweep, Hfuel).
  rewrite Hb.
  split; [reflexivity |]. split; [reflexivity |].
  split; [intros E body; apply multibeta_loop_for_each, Hfuel |].
  split; [unfold sweep_betas; rewrite length_map, length_seq; reflexivity |].
  split; [apply sweep_index_first |].
  split.
  { rewrite nth_error_sweep_betas by lia. unfold beta_at. cbn zeta.
    rewrite sweep_index_first.
    destruct (Z.geb_spec (len facs) (len facs)); [reflexivity | lia]. }
  intros k [Hk1 Hk].
  assert (Hn : 1 <= len facs).
  { destruct facs as [| f facs]; [| unfold len; simpl List.length; lia].
    unfold last, sweep_halvings in Hk. simpl in Hk. lia. }
  destruct k as [| k]; [lia |].
  pose proof (sweep_index_within (len facs) k Hn) as Hlt.
  pose proof (sweep_index_nonneg (len facs) (S k) ltac:(lia)) as H0.
  exists (nth (Z.to_nat (sweep_index (len facs) (S k))) facs 0%Q).
  split.
  - apply nth_error_nth'. unfold len in *. lia.
  - rewrite nth_error_sweep_betas by exact Hk. unfold beta_at. cbn zeta.
    destruct (Z.geb_spec (sweep_index (len facs) (S k)) (len facs));
      [lia | reflexivity].
Qed.

Lemma multibeta_beta_selection_witness :
  nth_error (betas_passed [5; 3; 2]%Q 4) 0 = Some (Int 1)
  /\ exists f : Q,
       nth_error [5; 3; 2]%Q (Z.to_nat (sweep_index 3 1)) = Some f
       /\ nth_error (betas_passed [5; 3; 2]%Q 4) 1 = Some (Float f).
Proof.
  pose proof (multibeta_beta_selection [5; 3; 2]%Q 4
                ltac:(vm_compute; lia)) as H.
  cbn zeta in H.
  destruct H as (_ & _ & _ & _ & _ & Hfirst & Hrest).
  split; [exact Hfirst |].
  apply (Hrest 1%nat). vm_compute. lia.
Defined.

(** C1, as stated, fails on the sweep over the factors 9, 8, 7, 6 and
    four times 5, however the factors are counted.  Counting all eight, the
    first iteration has proportion 1 and index 8, past the end of the list,
    and the beta passed is the integer [1].  Counting the five distinct
    ones, the second iteration has index [round(2.5) = 2], where the factor
    is 7, while the beta passed is the factor 5 at index 4. *)
Lemma first_beta_is_not_a_factor :
  ~ every_beta_is_indexed_factor len repeated_factors
  /\ ~ every_beta_is_indexed_factor distinct_count repeated_factors.
Proof.
  split; intros H.
  - destruct (H 5%nat 0%nat (Int 1) eq_refl) as [f [Hf _]].
    vm_compute in Hf. discriminate Hf.
  - destruct (H 5%nat 1%nat (Float 5) eq_refl) as [f [Hf Hbeta]].
    vm_compute in Hf. injection Hf as <-. discriminate Hbeta.
Qed.

(** Whatever the factors are, the betas of the second and later iterations
    do not decrease. *)
Lemma multibeta_betas_monotone_after_first (l : list Q) (fuel : nat)
    (i j : nat) (bi bj : num) :
  (sweep_halvings (List.length (sorted_reverse l)) < fuel)%nat ->
  (1 <= i <= j)%nat ->
  nth_error (betas_passed (sorted_reverse l) fuel) i = Some bi ->
  nth_error (betas_passed (sorted_reverse l) fuel) j = Some bj ->
  num_le bi bj.
Proof.
  intros Hfuel Hij Hi Hj.
  rewrite betas_passed_sweep in Hi, Hj by exact Hfuel.
  apply nth_error_sweep_betas_inv in Hi, Hj. subst bi bj.
  apply beta_at_monotone_after_first, Hij.
Qed.

(** *** The kernel along the sweep *)






(** ** The statements on the small instance *)

Lemma multibeta_reference_first_witness :
  exists rest : list event,
    fst (@multibeta Fixture.ext 4 [3; 2; 5]%Q "treedoubling" true true)
    = [Stdout "Using exact computation"; Stdout about_to_print_line;
       Stdout "0, 3, 3, 9/1, 0 1 2"] ++ rest.
Proof.
  destruct (@multibeta_reference_first Fixture.ext 4 [3; 2; 5]%Q
              "treedoubling" true true
              {| o_cost := Float 9; o_tour := [0; 1; 2] |} eq_refl)
    as [H _].
  rewrite H. eexists. reflexivity.
Defined.

Lemma multibeta_loop_terminates_witness :
  multibeta_loop (fun beta => emit beta) [5; 3; 2]%Q 4 1
  = ([Int 1; Float 2; Float 3; Float 5], Done tt)
  /\ snd (@multibeta Fixture.ext 4 [3; 2; 5]%Q "treedoubling" true true)
     <> OutOfFuel.
Proof.
  destruct (multibeta_loop_terminates [5; 3; 2]%Q)
    as (_ & _ & _ & Hrec & _ & Hmulti).
  split.
  - rewrite (Hrec 4%nat) by (vm_compute; lia). reflexivity.
  - apply (Hmulti Fixture.ext); [reflexivity | vm_compute; lia].
Defined.

Lemma format_output_fields_witness :
  @format_output Fixture.ext Fixture.sample 3 (Int 1) true true
  = "1, 3, 3, 9/1, 0 1 2"%string
  /\ exists rest : list event,
       fst (@main Fixture.ext 4
              ["main.py"; "g.atsp"; "-t"; "--tour"; "--multibeta"]%string)
       = [Stdout "Parsed args, about to parse matrix";
          GraphFileRead "g.atsp";
          Stdout "Parsed matrix, about to process matrix";
          Stdout "beta, graph_size, kernel_size, tour_cost, tour";
          Stdout "About to run"] ++ rest.
Proof.
  destruct (@format_output_fields Fixture.ext Fixture.sample 3 (Int 1)
              true true) as (Hline & _ & _ & Hmain).
  split.
  - rewrite Hline. reflexivity.
  - apply (Hmain 4%nat _ Fixture.args [3; 2; 5]%Q);
      [vm_compute; discriminate | reflexivity | reflexivity].
Defined.

Lemma run_selector_error_witness :
  @run Fixture.ext Fixture.triangle "treedoubling" (Int 1) true true
  = ([Stdout "Using exact computation"; Stdout "About to run treedoubling";
      Stdout "1, 3, 3, 9/1, 0 1 2"], Done tt).
Proof.
  destruct (@run_selector_error Fixture.ext Fixture.triangle "treedoubling"
              (Int 1) true true) as (_ & Htree & _).
  apply (Htree Fixture.sample); reflexivity.
Defined.

Lemma main_no_arguments_witness :
  @main Fixture.ext 4 ["main.py"%string] = ([HelpPrinted], Raised SystemExit).
Proof.
  exact (proj1 (@main_no_arguments Fixture.ext 4 "main.py")).
Defined.

(** * Further properties of the driver *)

(** ** The formatter *)

Lemma string_append_assoc (a b c : string) :
  String.append (String.append a b) c = String.append a (String.append b c).
Proof.
  induction a as [| ch a IH]; simpl; [reflexivity | rewrite IH; reflexivity].
Qed.

(** Joining one more field appends the separator and the field. *)
Lemma concat_snoc (sep : string) (l : list string) (a x : string) :
  String.concat sep ((a :: l) ++ [x])
  = String.append (String.concat sep (a :: l)) (String.append sep x).
Proof.
  revert a; induction l as [| b l IH]; intros a.
  - reflexivity.
  - change (String.concat sep ((a :: b :: l) ++ [x]))
      with (String.append a
              (String.append sep (String.concat sep ((b :: l) ++ [x])))).
    rewrite IH.
    change (String.concat sep (a :: b :: l))
      with (String.append a
              (String.append sep (String.concat sep (b :: l)))).
    rewrite !string_append_assoc. reflexivity.
Qed.

Section FormatOutputExtends.
Context {X : Externals}.

(** X1.  The optional fields only extend the line: the line with the cost is the
    line without it followed by [", "] and the cost, and the line with the
    tour is the line without it followed by [", "] and the tour; a solution
    with an empty tour therefore gives a line that ends with the
    separator. *)
Theorem format_output_extends (solution : Solution) (graph_size : Z)
    (beta : num) :
  format_output solution graph_size beta true false
  = String.append (format_output solution graph_size beta false false)
      (String.append ", " (str_num (cost solution)))
  /\ (forall compute_tour : bool,
        format_output solution graph_size beta compute_tour true
        = String.append
            (format_output solution graph_size beta compute_tour false)
            (String.append ", "
               (String.concat " " (map str_int (tour solution)))))
  /\ (tour solution = [] ->
      forall compute_tour : bool,
        format_output solution graph_size beta compute_tour true
        = String.append
            (format_output solution graph_size beta compute_tour false)
            ", ").
Proof.
  assert (Htour : forall compute_tour : bool,
    format_output solution graph_size beta compute_tour true
    = String.append
        (format_output solution graph_size beta compute_tour false)
        (String.append ", "
           (String.concat " " (map str_int (tour solution))))).
  { intros compute_tour. unfold format_output, output_fields.
    destruct compute_tour;
      [exact (concat_snoc ", " [_; _; _] _ _)
      | exact (concat_snoc ", " [_; _] _ _)]. }
  split; [| split].
  - exact (concat_snoc ", " [_; _] _ _).
  - exact Htour.
  - intros Hempty compute_tour. rewrite Htour, Hempty. reflexivity.
Qed.

End FormatOutputExtends.

Lemma format_output_extends_witness :
  @format_output Fixture.ext
    {| cost := Int 0; tour := []; kernel_size := 2 |} 4 (Int 1) false true
  = "1, 4, 2, "%string.
Proof.
  destruct (@format_output_extends Fixture.ext
              {| cost := Int 0; tour := []; kernel_size := 2 |} 4 (Int 1))
    as (_ & _ & Hempty).
  rewrite (Hempty eq_refl false). reflexivity.
Defined.

(** ** The single run, whatever the selector and the extender do *)

Section RunOutcome.
Context {X : Externals}.




End RunOutcome.

(** ** Errors of the sweep *)

Lemma multibeta_loop_raised_by_callee {E : Type} (body : num -> M E unit)
    (facs : list Q) (fuel k : nat) (e : exn) :
  snd (multibeta_loop body facs fuel (proportion k)) = Raised e ->
  exists beta : num, snd (body beta) = Raised e.
Proof.
  revert k; induction fuel as [| fuel IH]; intros k Hr.
  - discriminate Hr.
  - rewrite multibeta_loop_step, snd_bind in Hr.
    destruct (snd (body (beta_at facs k))) as [[] | e' |] eqn:Hb.
    + destruct (sweep_index (len facs) k >? 0).
      * apply (IH (S k)), Hr.
      * discriminate Hr.
    + exists (beta_at facs k). congruence.
    + discriminate Hr.
Qed.

Section SweepErrors.
Context {X : Externals}.

Lemma multibeta_reference_then_loop (fuel : nat) (m : Matrix)
    (algo : string) (compute_tour output_tour : bool) (r : OracleResult) :
  oracle compute_tour (to_graph m) = inr r ->
  multibeta fuel m algo compute_tour output_tour
  = (reference_events (to_graph m) compute_tour output_tour r
       ++ fst (multibeta_loop
                 (fun beta =>
                    run (to_graph m) algo beta compute_tour output_tour)
                 (sorted_reverse (asymmetry_factors m)) fuel 1),
     snd (multibeta_loop
            (fun beta => run (to_graph m) algo beta compute_tour output_tour)
            (sorted_reverse (asymmetry_factors m)) fuel 1)).
Proof.
  intros Hr. unfold multibeta, reference_events, banner.
  unfold oracle in Hr.
  destruct compute_tour; run_monad; rewrite Hr; run_monad; reflexivity.
Qed.

Lemma multibeta_oracle_raises (fuel : nat) (m : Matrix) (algo : string)
    (compute_tour output_tour : bool) (e : exn) :
  oracle compute_tour (to_graph m) = inl e ->
  multibeta fuel m algo compute_tour output_tour
  = ([banner compute_tour; Stdout about_to_print_line], Raised e).
Proof.
  intros Hr. unfold multibeta, banner. unfold oracle in Hr.
  destruct compute_tour; run_monad; rewrite Hr; run_monad; reflexivity.
Qed.

(** X3.  An exception that ends a sweep was raised by the exact oracle on the
    whole graph or by one of the runs; the loop itself raises nothing, and
    in particular its list access never fails. *)
Theorem multibeta_raises_only_from_callees (fuel : nat) (m : Matrix)
    (algo : string) (compute_tour output_tour : bool) (e : exn) :
  snd (multibeta fuel m algo compute_tour output_tour) = Raised e ->
  oracle compute_tour (to_graph m) = inl e
  \/ exists beta : num,
       snd (run (to_graph m) algo beta compute_tour output_tour) = Raised e.
Proof.
  intros Hr.
  destruct (oracle compute_tour (to_graph m)) as [e' | r] eqn:Ho.
  - rewrite (multibeta_oracle_raises fuel m algo _ output_tour _ Ho) in Hr.
    left. cbn [snd] in Hr. congruence.
  - rewrite (multibeta_reference_then_loop fuel m algo _ output_tour _ Ho)
      in Hr.
    cbn [snd] in Hr. right.
    apply (multibeta_loop_raised_by_callee _ _ fuel 0%nat e Hr).
Qed.

(** X4.  A sweep validates the selector only when its first run starts: with a
    selector that names no extender the exact oracle is still called on the
    whole graph and the reference solution is still printed, and the error
    is raised after the banner of the first run. *)
Theorem multibeta_invalid_selector (fuel : nat) (m : Matrix) (algo : string)
    (compute_tour output_tour : bool) (r : OracleResult) :
  algo <> "treedoubling"%string ->
  algo <> "christofides"%string ->
  oracle compute_tour (to_graph m) = inr r ->
  multibeta (S fuel) m algo compute_tour output_tour
  = (reference_events (to_graph m) compute_tour output_tour r
       ++ [banner compute_tour],
     Raised (ValueError (String.append "invalid algo: " algo))).
Proof.
  intros Ht Hc Hr.
  rewrite (multibeta_reference_then_loop _ m algo _ output_tour _ Hr).
  change 1%Q with (proportion 0).
  rewrite multibeta_loop_step, run_invalid by assumption.
  reflexivity.
Qed.

(** X5.  With fuel for all its iterations, a sweep prints its reference solution
    and then behaves as the loop over an explicit beta list does on the
    betas of the sweep. *)
Theorem multibeta_as_explicit_runs (fuel : nat) (m : Matrix) (algo : string)
    (compute_tour output_tour : bool) (r : OracleResult) :
  oracle compute_tour (to_graph m) = inr r ->
  (sweep_halvings (List.length (sorted_reverse (asymmetry_factors m)))
   < fuel)%nat ->
  let runs :=
    for_each
      (fun beta => run (to_graph m) algo beta compute_tour output_tour)
      (sweep_betas (sorted_reverse (asymmetry_factors m))) in
  multibeta fuel m algo compute_tour output_tour
  = (reference_events (to_graph m) compute_tour output_tour r ++ fst runs,
     snd runs).
Proof.
  intros Hr Hfuel runs.
  rewrite (multibeta_reference_then_loop _ m algo _ output_tour _ Hr).
  rewrite multibeta_loop_for_each by exact Hfuel. reflexivity.
Qed.

End SweepErrors.

Lemma multibeta_raises_only_from_callees_witness :
  @oracle Fixture.ext true (@to_graph Fixture.ext [3; 2; 5]%Q)
  = inl (ValueError "invalid algo: x")
  \/ exists beta : num,
       snd (@run Fixture.ext (@to_graph Fixture.ext [3; 2; 5]%Q) "x" beta
              true true)
       = Raised (ValueError "invalid algo: x").
Proof.
  apply (@multibeta_raises_only_from_callees Fixture.ext 4 [3; 2; 5]%Q "x"
           true true).
  reflexivity.
Defined.

Lemma multibeta_invalid_selector_witness :
  @multibeta Fixture.ext 1 [3; 2; 5]%Q "x" true true
  = ([Stdout "Using exact computation"; Stdout about_to_print_line;
      Stdout "0, 3, 3, 9/1, 0 1 2"; Stdout "Using exact computation"],
     Raised (ValueError "invalid algo: x")).
Proof.
  apply (@multibeta_invalid_selector Fixture.ext 0 [3; 2; 5]%Q "x" true true
           {| o_cost := Float 9; o_tour := [0; 1; 2] |});
    [discriminate | discriminate | reflexivity].
Defined.

Lemma multibeta_as_explicit_runs_witness :
  @multibeta Fixture.ext 4 [3; 2; 5]%Q "christofides" false false
  = ([Stdout "Using dummy tour"; Stdout about_to_print_line;
      Stdout "0, 3, 3"]
     ++ flat_map
          (fun beta =>
             [Stdout "Using dummy tour"; Stdout "About to run christofides";
              Stdout beta])
          ["1, 3, 3"; "2/1, 3, 3"; "3/1, 3, 3"; "5/1, 3, 3"]%string,
     Done tt).
Proof.
  rewrite (@multibeta_as_explicit_runs Fixture.ext 4 [3; 2; 5]%Q
             "christofides" false false
             {| o_cost := Int 0; o_tour := [0; 1; 2] |} eq_refl
             ltac:(vm_compute; lia)).
  reflexivity.
Defined.

(** ** The entry point *)

Lemma for_each_done {E A : Type} (body : A -> M E unit)
    (out : A -> list E) (l : list A) :
  (forall a : A, In a l -> body a = (out a, Done tt)) ->
  for_each body l = (flat_map out l, Done tt).
Proof.
  induction l as [| a l IH]; intros Hdone; [reflexivity |].
  cbn [for_each flat_map].
  rewrite (Hdone a (or_introl eq_refl)).
  rewrite IH by (intros b Hb; apply Hdone; right; exact Hb).
  reflexivity.
Qed.

Section Main.
Context {X : Externals}.

Lemma main_after_parsing (fuel : nat) (argv : list string) (args : Args)
    (m : Matrix) :
  len argv <> 1 ->
  parse_args argv = inr args ->
  parse (a_graph args) = inr m ->
  let matrix := metricize_cost_matrix (remove_dead_nodes m) in
  let work :=
    if a_multibeta args then
      multibeta fuel matrix (a_algo args)
        (a_compute_tour args) (a_output_tour args)
    else
      for_each
        (fun beta =>
           run (to_graph matrix) (a_algo args) beta
             (a_compute_tour args) (a_output_tour args))
        (a_beta_list args) in
  main fuel argv = (main_preamble args ++ fst work, snd work).
Proof.
  intros Hlen Hargs Hparse matrix work.
  unfold main. apply Z.eqb_neq in Hlen. rewrite Hlen, Hargs.
  run_monad. rewrite Hparse. run_monad. reflexivity.
Qed.

(** X9.  A command line or a graph file that cannot be parsed ends [main]
    before the header.  When [parse_args] exits, the message of [argparse]
    (the help for [-h], the usage and the error for a rejected line) is all
    there is, and another exception of [parse_args] leaves no trace; the
    graph file is not read.  When [parser.parse] rejects the graph file,
    the trace is the first progress line and the attempt to read the
    file. *)
Theorem main_fails_before_header (fuel : nat) (argv : list string) :
  len argv <> 1 ->
  (parse_args argv = inl SystemExit ->
   main fuel argv = ([ArgparseMessage], Raised SystemExit))
  /\ (forall e : exn,
        e <> SystemExit ->
        parse_args argv = inl e -> main fuel argv = ([], Raised e))
  /\ (forall (args : Args) (e : exn),
        parse_args argv = inr args ->
        parse (a_graph args) = inl e ->
        main fuel argv
        = ([Stdout "Parsed args, about to parse matrix";
            GraphFileRead (a_graph args)], Raised e)).
Proof.
  intros Hlen. apply Z.eqb_neq in Hlen. split; [| split].
  - intros He. unfold main. rewrite Hlen, He. run_monad. reflexivity.
  - intros e Hne He. unfold main. rewrite Hlen, He.
    destruct e; try congruence; run_monad; reflexivity.
  - intros args e Hargs He. unfold main. rewrite Hlen, Hargs.
    run_monad. rewrite He. run_monad. reflexivity.
Qed.

(** X10.  With an explicit beta list and extenders that return, [main] prints
    the preamble and then, for every beta of the list in order, the three
    events of its run, and ends normally. *)
Theorem main_explicit_betas (fuel : nat) (argv : list string) (args : Args)
    (m : Matrix) (sol : num -> Solution) :
  len argv <> 1 ->
  parse_args argv = inr args ->
  parse (a_graph args) = inr m ->
  a_multibeta args = false ->
  let g := to_graph (metricize_cost_matrix (remove_dead_nodes m)) in
  (a_algo args = "treedoubling"%string
   /\ forall beta : num,
        In beta (a_beta_list args) ->
        g_treedoubling g (oracle (a_compute_tour args)) beta
        = inr (sol beta))
  \/ (a_algo args = "christofides"%string
      /\ forall beta : num,
           In beta (a_beta_list args) ->
           g_christofides g (oracle (a_compute_tour args)) vertex_cover beta
           = inr (sol beta)) ->
  main fuel argv
  = (main_preamble args
       ++ flat_map
            (fun beta =>
               run_events g (a_algo args) (a_compute_tour args)
                 (a_output_tour args) (sol beta) beta)
            (a_beta_list args),
     Done tt).
Proof.
  intros Hlen Hargs Hparse Hmulti g Hsol.
  rewrite (main_after_parsing fuel argv args m Hlen Hargs Hparse).
  rewrite Hmulti. fold g.
  assert (Hrun : forall beta : num,
    In beta (a_beta_list args) ->
    run g (a_algo args) beta (a_compute_tour args) (a_output_tour args)
    = (run_events g (a_algo args) (a_compute_tour args)
         (a_output_tour args) (sol beta) beta, Done tt)).
  { intros beta Hin. destruct Hsol as [[Halgo Hs] | [Halgo Hs]];
      rewrite Halgo.
    - rewrite run_treedoubling, (Hs beta Hin). reflexivity.
    - rewrite run_christofides, (Hs beta Hin). reflexivity. }
  rewrite (for_each_done _ _ _ Hrun). reflexivity.
Qed.

End Main.

Lemma main_fails_before_header_witness :
  @main (Cases.ext_of (fun _ => inl SystemExit)
           (fun _ => inr [3; 2; 5]%Q) Fixture.whole_kernel)
    0 Cases.help_argv
  = ([ArgparseMessage], Raised SystemExit)
  /\ @main (Cases.ext_of (fun _ => inr Cases.explicit_args)
              (fun _ => inl (ExternalError "parser")) Fixture.whole_kernel)
       0 Cases.explicit_argv
     = ([Stdout "Parsed args, about to parse matrix"; GraphFileRead "g.csv"],
        Raised (ExternalError "parser")).
Proof.
  split.
  - apply (proj1 (@main_fails_before_header
                    (Cases.ext_of (fun _ => inl SystemExit)
                       (fun _ => inr [3; 2; 5]%Q) Fixture.whole_kernel)
                    0 Cases.help_argv ltac:(vm_compute; discriminate))).
    reflexivity.
  - apply (proj2 (proj2 (@main_fails_before_header
                    (Cases.ext_of (fun _ => inr Cases.explicit_args)
                       (fun _ => inl (ExternalError "parser"))
                       Fixture.whole_kernel)
                    0 Cases.explicit_argv ltac:(vm_compute; discriminate)))
             Cases.explicit_args);
      reflexivity.
Defined.

Lemma main_explicit_betas_witness :
  @main (Cases.ext_of (fun _ => inr Cases.explicit_args)
           (fun _ => inr [3; 2; 5]%Q) Fixture.whole_kernel)
    0 Cases.explicit_argv
  = ([Stdout "Parsed args, about to parse matrix"; GraphFileRead "g.csv";
      Stdout "Parsed matrix, about to process matrix";
      Stdout "beta, graph_size, kernel_size"; Stdout "About to run";
      Stdout "Using dummy tour"; Stdout "About to run christofides";
      Stdout "2/1, 3, 3";
      Stdout "Using dummy tour"; Stdout "About to run christofides";
      Stdout "0, 3, 3"], Done tt).
Proof.
  apply (@main_explicit_betas
           (Cases.ext_of (fun _ => inr Cases.explicit_args)
              (fun _ => inr [3; 2; 5]%Q) Fixture.whole_kernel)
           0 Cases.explicit_argv Cases.explicit_args [3; 2; 5]%Q
           (fun _ => Cases.dummy_solution));
    [vm_compute; discriminate | reflexivity | reflexivity | reflexivity |].
  right. split; [reflexivity |]. intros beta _. reflexivity.
Defined.

(** ** The betas of a sweep *)

(** X7.  The sweep ends on the largest factor: when the matrix has asymmetry
    factors at all, the beta of the last run is one of them and no factor
    exceeds it. *)
Theorem multibeta_last_beta_largest (l : list Q) (fuel : nat) :
  l <> [] ->
  (sweep_halvings (List.length (sorted_reverse l)) < fuel)%nat ->
  let betas := betas_passed (sorted_reverse l) fuel in
  exists f : Q,
    nth_error betas (List.length betas - 1) = Some (Float f)
    /\ In f l
    /\ forall x : Q, In x l -> (x <= f)%Q.
Proof.
  intros Hne Hfuel betas. set (facs := sorted_reverse l) in *.
  assert (Hlen : (0 < List.length facs)%nat).
  { destruct l as [| x l]; [congruence |].
    assert (Hx : In x facs) by (apply sorted_reverse_In; left; reflexivity).
    destruct facs; [destruct Hx | simpl; lia]. }
  assert (Hb : betas = sweep_betas facs)
    by (apply betas_passed_sweep, Hfuel).
  assert (Hcount : List.length betas = S (sweep_halvings (List.length facs))).
  { rewrite Hb. unfold sweep_betas. rewrite length_map, length_seq.
    reflexivity. }
  destruct (sweep_index_halvings facs) as [_ Hzero].
  exists (nth 0 facs 0%Q). split; [| split].
  - rewrite Hcount, Hb. cbn [Nat.sub]. rewrite Nat.sub_0_r.
    rewrite nth_error_sweep_betas by lia.
    unfold beta_at. cbn zeta. rewrite Hzero.
    destruct (Z.geb_spec 0 (len facs)) as [Hge | _];
      [unfold len in Hge; lia | reflexivity].
  - apply sorted_reverse_In. apply nth_In. exact Hlen.
  - intros x Hx. apply sorted_reverse_In in Hx. fold facs in Hx.
    destruct (In_nth facs x 0%Q Hx) as [j [Hj <-]].
    apply sorted_nth; [apply sorted_reverse_sorted | lia].
Qed.

Lemma multibeta_last_beta_largest_witness :
  exists f : Q,
    nth_error (betas_passed (sorted_reverse [3; 2; 5]%Q) 4) 3
    = Some (Float f)
    /\ In f [3; 2; 5]%Q
    /\ forall x : Q, In x [3; 2; 5]%Q -> (x <= f)%Q.
Proof.
  exact (multibeta_last_beta_largest [3; 2; 5]%Q 4
           ltac:(discriminate) ltac:(vm_compute; lia)).
Defined.

(** X8.  The number of runs of a sweep grows with the logarithm of the number of
    factors: one run when there is no factor, and otherwise two more than
    the base-2 logarithm of their number, rounded up. *)
Theorem multibeta_run_count (facs : list Q) (fuel : nat) :
  (sweep_halvings (List.length facs) < fuel)%nat ->
  Z.of_nat (List.length (betas_passed facs fuel))
  = if len facs =? 0 then 1 else Z.log2_up (len facs) + 2.
Proof.
  intros Hfuel. rewrite betas_passed_sweep by exact Hfuel.
  unfold sweep_betas. rewrite length_map, length_seq.
  unfold sweep_halvings, len.
  destruct (Z.eqb_spec (Z.of_nat (List.length facs)) 0) as [H0 | Hn].
  - rewrite H0. reflexivity.
  - rewrite Z.log2_up_double by lia.
    pose proof (Z.log2_up_nonneg (Z.of_nat (List.length facs))). lia.
Qed.

Lemma multibeta_run_count_witness :
  Z.of_nat (List.length (betas_passed [9; 8; 7; 6; 5]%Q 5)) = 5.
Proof.
  exact (multibeta_run_count [9; 8; 7; 6; 5]%Q 5 ltac:(vm_compute; lia)).
Defined.

(** ** A run that fails ends the loop *)

(** A loop over a list stops at the first element whose body raises: the
    elements after it are not visited. *)
Lemma for_each_stops {E A : Type} (body : A -> M E unit)
    (before : list A) (a : A) (after : list A) (e : exn) :
  (forall b : A, In b before -> snd (body b) = Done tt) ->
  snd (body a) = Raised e ->
  for_each body (before ++ a :: after)
  = (flat_map (fun b => fst (body b)) before ++ fst (body a), Raised e).
Proof.
  intros Hdone Ha. induction before as [| b before IH].
  - cbn [app for_each flat_map].
    destruct (body a) as [out r]. cbn [snd] in Ha. subst r. reflexivity.
  - cbn [app for_each flat_map].
    pose proof (Hdone b (or_introl eq_refl)) as Hb.
    rewrite IH by (intros c Hc; apply Hdone; right; exact Hc).
    destruct (body b) as [out r]. cbn [snd] in Hb. subst r.
    unfold bind. cbn [fst]. rewrite app_assoc. reflexivity.
Qed.

Section FirstFailure.
Context {X : Externals}.

(** X6.  A run that raises ends the sweep: the runs before it have printed
    their events, the failing run prints what it printed before raising,
    and the betas after it are never run. *)
Theorem multibeta_stops_at_first_failure (fuel : nat) (m : Matrix)
    (algo : string) (compute_tour output_tour : bool) (r : OracleResult)
    (before : list num) (beta : num) (after : list num) (e : exn) :
  oracle compute_tour (to_graph m) = inr r ->
  (sweep_halvings (List.length (sorted_reverse (asymmetry_factors m)))
   < fuel)%nat ->
  sweep_betas (sorted_reverse (asymmetry_factors m))
  = before ++ beta :: after ->
  (forall b : num,
      In b before ->
      snd (run (to_graph m) algo b compute_tour output_tour) = Done tt) ->
  snd (run (to_graph m) algo beta compute_tour output_tour) = Raised e ->
  multibeta fuel m algo compute_tour output_tour
  = (reference_events (to_graph m) compute_tour output_tour r
       ++ flat_map
            (fun b =>
               fst (run (to_graph m) algo b compute_tour output_tour))
            before
       ++ fst (run (to_graph m) algo beta compute_tour output_tour),
     Raised e).
Proof.
  intros Hr Hfuel Hsplit Hdone Hraise.
  rewrite (multibeta_reference_then_loop _ m algo _ output_tour _ Hr).
  rewrite multibeta_loop_for_each by exact Hfuel.
  rewrite Hsplit.
  rewrite (for_each_stops _ before beta after e Hdone Hraise).
  reflexivity.
Qed.

(** X11.  The same holds for an explicit beta list: [main] stops at the first
    beta whose run raises and runs none of the betas after it. *)
Theorem main_explicit_stops_at_first_failure (fuel : nat)
    (argv : list string) (args : Args) (m : Matrix)
    (before : list num) (beta : num) (after : list num) (e : exn) :
  len argv <> 1 ->
  parse_args argv = inr args ->
  parse (a_graph args) = inr m ->
  a_multibeta args = false ->
  a_beta_list args = before ++ beta :: after ->
  let g := to_graph (metricize_cost_matrix (remove_dead_nodes m)) in
  let run_beta := fun b =>
    run g (a_algo args) b (a_compute_tour args) (a_output_tour args) in
  (forall b : num, In b before -> snd (run_beta b) = Done tt) ->
  snd (run_beta beta) = Raised e ->
  main fuel argv
  = (main_preamble args
       ++ flat_map (fun b => fst (run_beta b)) before
       ++ fst (run_beta beta),
     Raised e).
Proof.
  intros Hlen Hargs Hparse Hmulti Hsplit g run_beta Hdone Hraise.
  rewrite (main_after_parsing fuel argv args m Hlen Hargs Hparse).
  rewrite Hmulti, Hsplit. fold g. fold run_beta.
  rewrite (for_each_stops run_beta before beta after e Hdone Hraise).
  reflexivity.
Qed.

(** X12.  A sweep started from [main] works on the matrix after dead-node removal
    and metricization, for the graph and for the factors alike: after the
    preamble come the reference solution and the runs of that matrix. *)
Theorem main_multibeta_output (fuel : nat) (argv : list string)
    (args : Args) (m : Matrix) (r : OracleResult) :
  len argv <> 1 ->
  parse_args argv = inr args ->
  parse (a_graph args) = inr m ->
  a_multibeta args = true ->
  let matrix := metricize_cost_matrix (remove_dead_nodes m) in
  let g := to_graph matrix in
  let facs := sorted_reverse (asymmetry_factors matrix) in
  let runs :=
    for_each
      (fun beta =>
         run g (a_algo args) beta (a_compute_tour args) (a_output_tour args))
      (sweep_betas facs) in
  oracle (a_compute_tour args) g = inr r ->
  (sweep_halvings (List.length facs) < fuel)%nat ->
  main fuel argv
  = (main_preamble args
       ++ reference_events g (a_compute_tour args) (a_output_tour args) r
       ++ fst runs,
     snd runs).
Proof.
  intros Hlen Hargs Hparse Hmulti matrix g facs runs Hr Hfuel.
  rewrite (main_after_parsing fuel argv args m Hlen Hargs Hparse).
  rewrite Hmulti. fold matrix.
  rewrite (multibeta_reference_then_loop fuel matrix (a_algo args)
             (a_compute_tour args) (a_output_tour args) r Hr).
  rewrite multibeta_loop_for_each by exact Hfuel.
  reflexivity.
Qed.

End FirstFailure.

Lemma multibeta_stops_at_first_failure_witness :
  @multibeta
    (Cases.ext_of (fun _ => inr Fixture.args) (fun _ => inr [3; 2; 5]%Q)
       (Cases.fails_when Cases.above_two))
    4 [3; 2; 5]%Q "treedoubling" false false
  = ([Stdout "Using dummy tour"; Stdout about_to_print_line;
      Stdout "0, 3, 3";
      Stdout "Using dummy tour"; Stdout "About to run treedoubling";
      Stdout "1, 3, 3";
      Stdout "Using dummy tour"; Stdout "About to run treedoubling";
      Stdout "2/1, 3, 3";
      Stdout "Using dummy tour"; Stdout "About to run treedoubling"],
     Raised (ExternalError "concorde")).
Proof.
  apply (@multibeta_stops_at_first_failure
           (Cases.ext_of (fun _ => inr Fixture.args)
              (fun _ => inr [3; 2; 5]%Q) (Cases.fails_when Cases.above_two))
           4 [3; 2; 5]%Q "treedoubling" false false
           {| o_cost := Int 0; o_tour := [0; 1; 2] |}
           [Int 1; Float 2] (Float 3) [Float 5] (ExternalError "concorde"));
    [reflexivity | vm_compute; lia | reflexivity | | reflexivity].
  intros b [<- | [<- | []]]; reflexivity.
Defined.

Lemma main_explicit_stops_at_first_failure_witness :
  @main
    (Cases.ext_of (fun _ => inr Cases.explicit_args)
       (fun _ => inr [3; 2; 5]%Q) (Cases.fails_when Cases.at_most_zero))
    0 Cases.explicit_argv
  = ([Stdout "Parsed args, about to parse matrix"; GraphFileRead "g.csv";
      Stdout "Parsed matrix, about to process matrix";
      Stdout "beta, graph_size, kernel_size"; Stdout "About to run";
      Stdout "Using dummy tour"; Stdout "About to run christofides";
      Stdout "2/1, 3, 3";
      Stdout "Using dummy tour"; Stdout "About to run christofides"],
     Raised (ExternalError "concorde")).
Proof.
  apply (@main_explicit_stops_at_first_failure
           (Cases.ext_of (fun _ => inr Cases.explicit_args)
              (fun _ => inr [3; 2; 5]%Q)
              (Cases.fails_when Cases.at_most_zero))
           0 Cases.explicit_argv Cases.explicit_args [3; 2; 5]%Q
           [Float 2] (Int 0) [] (ExternalError "concorde"));
    [vm_compute; discriminate | reflexivity | reflexivity | reflexivity
    | reflexivity | | reflexivity].
  intros b [<- | []]. reflexivity.
Defined.

Lemma main_multibeta_output_witness :
  @main Fixture.ext 4 Cases.sweep_argv
  = ([Stdout "Parsed args, about to parse matrix"; GraphFileRead "g.atsp";
      Stdout "Parsed matrix, about to process matrix";
      Stdout "beta, graph_size, kernel_size, tour_cost, tour";
      Stdout "About to run";
      Stdout "Using exact computation"; Stdout about_to_print_line;
      Stdout "0, 3, 3, 9/1, 0 1 2"]
     ++ flat_map
          (fun line =>
             [Stdout "Using exact computation";
              Stdout "About to run treedoubling"; Stdout line])
          ["1, 3, 3, 9/1, 0 1 2"; "2/1, 3, 3, 9/1, 0 1 2";
           "3/1, 3, 3, 9/1, 0 1 2"; "5/1, 3, 3, 9/1, 0 1 2"]%string,
     Done tt).
Proof.
  apply (@main_multibeta_output Fixture.ext 4 Cases.sweep_argv
           Fixture.args [3; 2; 5]%Q
           {| o_cost := Float 9; o_tour := [0; 1; 2] |});
    [vm_compute; discriminate | reflexivity | reflexivity | reflexivity
    | reflexivity | vm_compute; lia].
Defined.
